(** * Nano-GPT: the character codec and the bigram language model

    A shallow embedding of the two notebooks of the repository
    (the training notebook and [load-model.ipynb]):

    - the vocabulary cell ([chars], [vocab_size], [stoi], [itos],
      [encode], [decode]);
    - [BigramLanguageModel] ([forward], [generate]) together with the
      documented behaviour of the PyTorch functions it calls
      ([nn.Embedding], [F.cross_entropy], [F.softmax],
      [torch.multinomial], [torch.cat]);
    - [state_dict] / [torch.save] / [torch.load] / [load_state_dict].

    Python exceptions are values of [result]; Python integers are [Z];
    a character is its code point; tensors of floats are nested lists
    over the real numbers (an idealisation: rounding is not modelled),
    with [NaN] kept apart for the one place where the code produces it
    (the mean of an empty batch). *)

From Stdlib Require Import Reals Lra.
From stdpp Require Import gmap sorting list strings.

(** ** Python exceptions *)

Inductive exn :=
  KeyError | IndexError | ValueError | RuntimeError | FileNotFoundError.

Inductive result (A : Type) : Type :=
  | Ok (a : A)
  | Raise (e : exn).
Arguments Ok {A} a.
Arguments Raise {A} e.

#[global] Instance result_ret : MRet result := λ A a, Ok a.
#[global] Instance result_bind : MBind result := λ A B f r,
  match r with
  | Ok a => f a
  | Raise e => Raise e
  end.

#[global] Instance R_inhabited : Inhabited R := populate 0%R.

(** [d[k]] on a dict: [KeyError] when the key is absent. *)
Definition getitem `{Countable K} {V} (d : gmap K V) (k : K) : result V :=
  match d !! k with
  | Some v => Ok v
  | None => Raise KeyError
  end.

(** [enumerate(l)] *)
Definition enumerate {A} (l : list A) : list (Z * A) :=
  imap (λ i x, (Z.of_nat i, x)) l.

(** A dict comprehension [{k: v for ... }]: entries are stored in
    iteration order, a later entry replaces an earlier one with the
    same key. *)
Definition dict_of `{Countable K} {V} (kvs : list (K * V)) : gmap K V :=
  foldl (λ d kv, <[kv.1 := kv.2]> d) ∅ kvs.

(** ** The vocabulary cell *)

Module Codec.

(** A character is its Unicode code point; a [str] is the list of its
    characters, so that [str.join] of one-character strings with the
    empty separator is the list itself. *)
Definition char := N.
Definition str := list char.

(** [sorted(...)] on characters: ascending code points. *)
Definition sorted (l : list char) : list char := merge_sort N.le l.

Record Vocabulary := {
  chars : list char;
  vocab_size : Z;
  stoi : gmap char Z;
  itos : gmap Z char
}.

(** <<
    chars = sorted(list(set(text)))
    vocab_size = len(chars)
    stoi = {ch: i for i, ch in enumerate(chars)}
    itos = {i: ch for i, ch in enumerate(chars)}
    >>
    None of the four statements can raise. *)
Definition build (text : str) : result Vocabulary :=
  let chars := sorted (elements (list_to_set text : gset char)) in
  let vocab_size := Z.of_nat (length chars) in
  let stoi := dict_of ((λ p, (p.2, p.1)) <$> enumerate chars) in
  let itos := dict_of ((λ p, (p.1, p.2)) <$> enumerate chars) in
  Ok {| chars := chars; vocab_size := vocab_size; stoi := stoi; itos := itos |}.

(** [encode = lambda s: [stoi[c] for c in s]] *)
Definition encode (v : Vocabulary) (s : str) : result (list Z) :=
  mapM (λ c, getitem (stoi v) c) s.

(** [decode = lambda l: EMPTY.join([itos[i] for i in l])], where
    [EMPTY] is the empty string: the characters are concatenated. *)
Definition decode (v : Vocabulary) (l : list Z) : result str :=
  mapM (λ i, getitem (itos v) i) l.

End Codec.

(** ** The PyTorch functions the model calls

    Documented behaviour of the library, over the reals. *)

Module Torch.

(** A 0-dimensional float tensor. [NaN] is what a mean over no
    element evaluates to. *)
Inductive scalar :=
  | Fin (r : R)
  | NaN.

Definition scalar_neg (s : scalar) : scalar :=
  match s with
  | Fin r => Fin (- r)
  | NaN => NaN
  end.

Definition Rsum (l : list R) : R := foldr Rplus 0%R l.

(** [x.mean()] *)
Definition mean (l : list R) : scalar :=
  match l with
  | [] => NaN
  | _ => Fin (Rsum l / INR (length l))
  end.

(** Indexing by a class or token id: no wrap-around for negative
    ids, [IndexError] outside [0, len). *)
Definition index {A} (l : list A) (i : Z) : result A :=
  if decide (0 ≤ i < Z.of_nat (length l))%Z then
    match l !! Z.to_nat i with
    | Some a => Ok a
    | None => Raise IndexError
    end
  else Raise IndexError.

(** [F.softmax(x, dim=-1)] on one row. *)
Definition softmax (x : list R) : list R :=
  (λ xi, exp xi / Rsum (exp <$> x))%R <$> x.

(** [F.log_softmax(x, dim=-1)] on one row. *)
Definition log_softmax (x : list R) : list R :=
  (λ xi, ln (exp xi / Rsum (exp <$> x)))%R <$> x.

(** [F.embedding(idx, weight)] for a [(B,T)] index tensor. *)
Definition embedding (weight : list (list R)) (idx : list (list Z))
  : result (list (list (list R))) :=
  mapM (mapM (index weight)) idx.

Definition ignore_index : Z := (-100)%Z.

(** One term of [F.nll_loss]: [None] for an ignored target. *)
Definition nll_term (logp : list R) (y : Z) : result (option R) :=
  if decide (y = ignore_index) then Ok None
  else v ← index logp y; Ok (Some (- v)%R).

(** [F.cross_entropy(input, target)] with its defaults
    ([reduction='mean'], [ignore_index=-100]), [input] of shape
    [(N,C)] and [target] of shape [(N)]. *)
Definition cross_entropy (input : list (list R)) (target : list Z)
  : result scalar :=
  if decide (length input = length target) then
    terms ← mapM (λ p, nll_term (log_softmax p.1) p.2) (zip input target);
    Ok (mean (omap (λ o, o) terms))
  else Raise ValueError.

(** [x[:, -1, :]] on a [(B,T,C)] tensor (also [x[:, -1]] on [(B,T)]). *)
Definition select_last {A} (x : list (list A)) : result (list A) :=
  mapM (λ row, match last row with
               | Some a => Ok a
               | None => Raise IndexError
               end) x.

(** [torch.cat((a, b), dim=1)] on two 2-dimensional tensors. *)
Definition cat1 {A} (a b : list (list A)) : result (list (list A)) :=
  if decide (length a = length b) then Ok (zip_with app a b)
  else Raise RuntimeError.

(** [torch.multinomial(probs, num_samples=1)] on [(B,C)]: one draw
    per row, in row order, from the random source [draw], whose
    generator state is threaded through. The result has shape [(B,1)]. *)
Fixpoint multinomial {G} (draw : G → list R → result (Z * G))
    (probs : list (list R)) (g : G) : result (list (list Z) * G) :=
  match probs with
  | [] => Ok ([], g)
  | p :: ps =>
      '(i, g) ← draw g p;
      '(rest, g) ← multinomial draw ps g;
      Ok ([i] :: rest, g)
  end.

(** What the library promises about one draw: the category drawn is
    one of the [len(p)] categories, and on a distribution (entries
    non-negative, positive sum) the draw does not raise. *)
Record draw_ok {G} (draw : G → list R → result (Z * G)) : Prop := {
  draw_range : ∀ g p i g',
    draw g p = Ok (i, g') → (0 ≤ i < Z.of_nat (length p))%Z;
  draw_total : ∀ g p,
    Forall (λ x, 0 <= x)%R p → (0 < Rsum p)%R →
    ∃ i g', draw g p = Ok (i, g')
}.

(** A file system for [torch.save] / [torch.load]. *)
Definition save {O} (obj : O) (path : string) (fs : gmap string O)
  : gmap string O := <[path := obj]> fs.

Definition load {O} (path : string) (fs : gmap string O) : result O :=
  match fs !! path with
  | Some obj => Ok obj
  | None => Raise FileNotFoundError
  end.

End Torch.

(** ** The model *)

Module Bigram.
Import Torch.

(** [nn.Embedding(num_embeddings, embedding_dim)] *)
Record Embedding := {
  num_embeddings : nat;
  embedding_dim : nat;
  weight : list (list R)
}.

Record BigramLanguageModel := {
  token_embedding_table : Embedding
}.

(** [t.shape == (n, m)] for a matrix given by its rows. *)
Definition has_shape {A} (n m : nat) (t : list (list A)) : Prop :=
  length t = n ∧ Forall (λ row, length row = m) t.

(** [t.shape == (n, m, c)] *)
Definition has_shape3 {A} (n m c : nat) (t : list (list (list A))) : Prop :=
  length t = n ∧ Forall (has_shape m c) t.

(** A token sequence for a vocabulary of [size] ids. *)
Definition valid_ids (size : nat) (ids : list Z) : Prop :=
  Forall (λ i, 0 ≤ i < Z.of_nat size)%Z ids.

(** A model whose table is [size × size]. *)
Definition well_formed (size : nat) (self : BigramLanguageModel) : Prop :=
  let emb := token_embedding_table self in
  num_embeddings emb = size ∧ embedding_dim emb = size ∧
  has_shape size size (weight emb).

#[global] Instance has_shape_dec {A} n m (t : list (list A)) :
  Decision (has_shape n m t).
Proof. unfold has_shape. apply _. Defined.

(** [__init__(self, vocab_size)]; [randn] is the initial weight the
    library draws, of shape [(vocab_size, vocab_size)]. *)
Definition init (vocab_size : nat) (randn : list (list R))
  : BigramLanguageModel :=
  {| token_embedding_table :=
       {| num_embeddings := vocab_size;
          embedding_dim := vocab_size;
          weight := randn |} |}.

(** [forward] returns the logits either as [(B,T,C)] (no targets) or
    reshaped to [(B*T,C)] (with targets). *)
Inductive logits_t :=
  | Logits3 (x : list (list (list R)))
  | Logits2 (x : list (list R)).

(** The [else] branch of [forward]:
    <<
    B, T, C = logits.shape
    logits = logits.view(B * T, C)
    targets = targets.view(B * T)
    loss = F.cross_entropy(logits, targets)
    >>
    [view] keeps the row-major order of the elements and raises when
    the number of elements differs. *)
Definition loss_branch (logits : list (list (list R)))
    (targets : list (list Z)) : result (list (list R) * scalar) :=
  let logits2 := concat logits in
  if decide (length (concat targets) = length logits2) then
    loss ← cross_entropy logits2 (concat targets);
    Ok (logits2, loss)
  else Raise RuntimeError.

Definition forward (self : BigramLanguageModel) (idx : list (list Z))
    (targets : option (list (list Z)))
  : result (logits_t * option scalar) :=
  logits ← embedding (weight (token_embedding_table self)) idx;
  match targets with
  | None => Ok (Logits3 logits, None)
  | Some targets =>
      '(logits2, loss) ← loss_branch logits targets;
      Ok (Logits2 logits2, Some loss)
  end.

(** The distribution the next ids are drawn from:
    <<
    logits, loss = self(idx)
    logits = logits[:, -1, :]
    probs = F.softmax(logits, dim=-1)
    >> *)
Definition next_probs (self : BigramLanguageModel) (idx : list (list Z))
  : result (list (list R)) :=
  '(logits, loss) ← forward self idx None;
  match logits return result (list (list R)) with
  | Logits3 x => last_step ← select_last x; Ok (map softmax last_step)
  | Logits2 _ => Raise IndexError
  end.

(** The softmax of the table row of the last id of one sequence:
    what [next_probs] is shown to compute for each row of the batch. *)
Definition row_probs (w : list (list R)) (row : list Z)
  : result (list R) :=
  match last row with
  | Some i => Ok (softmax (w !!! Z.to_nat i))
  | None => Raise IndexError
  end.

Section Generate.
Context {G : Type} (draw : G → list R → result (Z * G)).

(** One iteration of the loop of [generate]:
    <<
    idx_next = torch.multinomial(probs, num_samples=1)
    idx = torch.cat((idx, idx_next), dim=1)
    >> *)
Definition generate_step (self : BigramLanguageModel)
    (idx : list (list Z)) (g : G) : result (list (list Z) * G) :=
  probs ← next_probs self idx;
  '(idx_next, g) ← multinomial draw probs g;
  idx ← cat1 idx idx_next;
  Ok (idx, g).

Fixpoint generate_loop (self : BigramLanguageModel) (n : nat)
    (idx : list (list Z)) (g : G) : result (list (list Z) * G) :=
  match n with
  | O => Ok (idx, g)
  | S n => '(idx, g) ← generate_step self idx g; generate_loop self n idx g
  end.

(** [for _ in range(max_new_tokens): ...; return idx] *)
Definition generate (self : BigramLanguageModel) (idx : list (list Z))
    (max_new_tokens : Z) (g : G) : result (list (list Z) * G) :=
  generate_loop self (Z.to_nat max_new_tokens) idx g.
End Generate.

(** ** Persistence *)

Definition weight_key : string := "token_embedding_table.weight".

(** [model.state_dict()] *)
Definition state_dict (self : BigramLanguageModel)
  : gmap string (list (list R)) :=
  {[ weight_key := weight (token_embedding_table self) ]}.

(** [model.load_state_dict(sd)] (strict): a missing key, an unexpected
    key or a tensor of another shape raise [RuntimeError]. *)
Definition load_state_dict (self : BigramLanguageModel)
    (sd : gmap string (list (list R))) : result BigramLanguageModel :=
  let emb := token_embedding_table self in
  match sd !! weight_key with
  | None => Raise RuntimeError
  | Some w =>
      if decide (dom sd ⊆ ({[ weight_key ]} : gset string)) then
        if decide (has_shape (num_embeddings emb) (embedding_dim emb) w) then
          Ok {| token_embedding_table :=
                  {| num_embeddings := num_embeddings emb;
                     embedding_dim := embedding_dim emb;
                     weight := w |} |}
        else Raise RuntimeError
      else Raise RuntimeError
  end.

End Bigram.

(** ** The loss as the specification words it *)

Module Spec.
Import Torch.

(** [-mean(log(softmax(logits)[b, t, targets[b, t]]))] over all
    positions [(b, t)] of a [(B,T)] batch, in row-major order. *)
Definition loss (B T : nat) (logits : list (list (list R)))
    (targets : list (list Z)) : scalar :=
  scalar_neg (mean (
    seq 0 B ≫= λ b,
      (λ t, ln (softmax ((logits !!! b) !!! t)
                  !!! Z.to_nat ((targets !!! b) !!! t))) <$> seq 0 T)).

End Spec.

(** ** A small instance

    The corpus ["abab"], a model of size [2] and a random source, used
    to run the definitions on concrete inputs. *)

Module Demo.

Definition corpus : Codec.str := [97; 98; 97; 98]%N.

Definition vocab : Codec.Vocabulary :=
  {| Codec.chars := [97; 98]%N;
     Codec.vocab_size := 2;
     Codec.stoi := {[ 97%N := 0%Z; 98%N := 1%Z ]};
     Codec.itos := {[ 0%Z := 97%N; 1%Z := 98%N ]} |}.

Definition table : list (list R) := [[1; 2]; [3; 4]]%R.

Definition model : Bigram.BigramLanguageModel := Bigram.init 2 table.

(** A random source that goes round the categories; its state is the
    number of draws made so far. *)
Definition round_robin (g : nat) (p : list R) : result (Z * nat) :=
  match p with
  | [] => Raise RuntimeError
  | _ => Ok (Z.of_nat (g mod length p), S g)
  end.

End Demo.

(** ** The data cells: the split, the batches, the sampled text *)

Module Data.
Import Torch Bigram.

(** A slice bound as Python adjusts it: a negative bound counts from
    the end, and the result is clamped to [0, len]. *)
Definition slice_index (len i : Z) : Z :=
  if decide (i < 0)%Z then Z.max (i + len) 0 else Z.min i len.

(** [l[start:stop]], a missing bound being [None]; the same for a
    list and for a 1-dimensional tensor. *)
Definition slice {A} (l : list A) (start stop : option Z) : list A :=
  let len := Z.of_nat (length l) in
  let lo := match start with Some i => slice_index len i | None => 0%Z end in
  let hi := match stop with Some i => slice_index len i | None => len end in
  take (Z.to_nat (hi - lo)) (drop (Z.to_nat lo) l).

(** <<
    train_data = data[:n]
    val_data = data[n:]
    >>
    [n] is the integer [int(0.9 * len(data))] evaluates to; the
    floating-point product is not modelled, [n] is taken as given. *)
Definition split_data (data : list Z) (n : Z) : list Z * list Z :=
  (slice data None (Some n), slice data (Some n) None).

Section batches.
Context {G : Type} (rand : G → Z → Z * G).

Fixpoint randint_draws (high : Z) (n : nat) (g : G) : list Z * G :=
  match n with
  | O => ([], g)
  | S n =>
      let '(i, g) := rand g high in
      let '(rest, g) := randint_draws high n g in
      (i :: rest, g)
  end.

(** [torch.randint(high, (n,))]: [n] integers, each drawn by [rand]
    below [high]; raises unless [0 < high]. *)
Definition randint (high : Z) (n : nat) (g : G) : result (list Z * G) :=
  if decide (0 < high)%Z then Ok (randint_draws high n g)
  else Raise RuntimeError.

(** [torch.stack(rows)] of 1-dimensional tensors: raises on no tensor
    and on tensors of different sizes. *)
Definition stack {A} (rows : list (list A)) : result (list (list A)) :=
  match rows with
  | [] => Raise RuntimeError
  | r :: _ =>
      if decide (Forall (λ r', length r' = length r) rows) then Ok rows
      else Raise RuntimeError
  end.

(** The globals [get_batch] reads. *)
Record Globals := {
  batch_size : nat;
  block_size : nat;
  train_data : list Z;
  val_data : list Z
}.

(** <<
    def get_batch(split):
        data = train_data if split == "train" else val_data
        ix = torch.randint(len(data) - block_size, (batch_size,))
        x = torch.stack([data[i : i + block_size] for i in ix])
        y = torch.stack([data[i + 1 : i + block_size + 1] for i in ix])
        return x, y
    >>
    (moving to the device does not change the values). *)
Definition get_batch (env : Globals) (split : string) (g : G)
  : result ((list (list Z) * list (list Z)) * G) :=
  let data := if decide (split = "train") then train_data env
              else val_data env in
  let bs := Z.of_nat (block_size env) in
  '(ix, g) ← randint (Z.of_nat (length data) - bs) (batch_size env) g;
  x ← stack ((λ i, slice data (Some i) (Some (i + bs)%Z)) <$> ix);
  y ← stack ((λ i, slice data (Some (i + 1)%Z) (Some (i + bs + 1)%Z)) <$> ix);
  Ok ((x, y), g).

End batches.

(** Row by row, [x] is a window of [bs] consecutive ids of [data]
    and [y] the window that starts one position later: what
    [get_batch] is shown to return. *)
Definition windows_at (data : list Z) (bs : nat) (x y : list (list Z))
  : Prop :=
  Forall2 (λ xr yr, ∃ i : nat,
             i + bs < length data ∧
             xr = take bs (drop i data) ∧
             yr = take bs (drop (S i) data)) x y.

(** What the library promises about [rand]: below a positive [high]
    the integer drawn is in [0, high). *)
Definition rand_ok {G} (rand : G → Z → Z * G) : Prop :=
  ∀ g high i g',
    (0 < high)%Z → rand g high = (i, g') → (0 ≤ i < high)%Z.

(** <<
    context = torch.zeros((1, 1), dtype=torch.long)
    decode(m.generate(context, max_new_tokens)[0].tolist())
    >> *)
Definition generate_text {G} (draw : G → list R → result (Z * G))
    (v : Codec.Vocabulary) (m : BigramLanguageModel)
    (max_new_tokens : Z) (g : G) : result (Codec.str * G) :=
  let context := [[0%Z]] in
  '(out, g) ← generate draw m context max_new_tokens g;
  row ← index out 0;
  text ← Codec.decode v row;
  Ok (text, g).

End Data.

Module DemoData.

(** The corpus ["abab"] encoded, split after the third id. *)
Definition data : list Z := [0; 1; 0; 1]%Z.

Definition env : Data.Globals :=
  {| Data.batch_size := 2; Data.block_size := 2;
     Data.train_data := [0; 1; 0; 1; 0]%Z; Data.val_data := [1; 0; 1]%Z |}.

(** A generator that counts the draws and goes round [0, high). *)
Definition counter (g : nat) (high : Z) : Z * nat :=
  ((Z.of_nat g) mod high, S g)%Z.

End DemoData.

(** * Proofs *)

(** ** The exception monad *)

Section result_lemmas.
Context {A B : Type}.
Implicit Types (f : A → result B) (l : list A) (k : list B).

Lemma mapM_nil f : mapM f [] = Ok [].
Proof. reflexivity. Qed.

Lemma mapM_cons f x l :
  mapM f (x :: l) = y ← f x; k ← mapM f l; Ok (y :: k).
Proof. reflexivity. Qed.

Lemma mapM_Ok_Forall2 f l k :
  mapM f l = Ok k ↔ Forall2 (λ x y, f x = Ok y) l k.
Proof.
  revert k. induction l as [|x l IH]; intros k.
  - rewrite mapM_nil. split.
    + intros [= <-]. constructor.
    + intros Hk. by inversion Hk.
  - rewrite mapM_cons. split.
    + destruct (f x) as [y|e] eqn:Hx; [|done]. simpl.
      destruct (mapM f l) as [k'|e] eqn:Hl; [|done]. simpl.
      intros [= <-]. constructor; [done|]. by apply IH.
    + intros Hk. inversion Hk as [|? y ? k' Hx Hl]; subst.
      apply IH in Hl. rewrite Hx. simpl. rewrite Hl. done.
Qed.

Lemma mapM_Ok_length f l k : mapM f l = Ok k → length k = length l.
Proof.
  intros Hk%mapM_Ok_Forall2. symmetry. by eapply Forall2_length.
Qed.

Lemma mapM_Ok_fmap f (h : A → B) l :
  Forall (λ x, f x = Ok (h x)) l → mapM f l = Ok (h <$> l).
Proof.
  intros Hl. apply mapM_Ok_Forall2.
  induction Hl; constructor; auto.
Qed.

Lemma mapM_Raise f l x e :
  x ∈ l → f x = Raise e → ∃ e', mapM f l = Raise e'.
Proof.
  intros Hx Hfx. induction l as [|y l IH]; [by apply elem_of_nil in Hx|].
  rewrite mapM_cons. apply elem_of_cons in Hx as [->|Hx].
  - rewrite Hfx. by eexists.
  - destruct (f y); [|by eexists]. simpl.
    destruct (IH Hx) as [e' ->]. by eexists.
Qed.

End result_lemmas.

Lemma mapM_ext_Forall {A B} (f g : A → result B) (l : list A) :
  Forall (λ x, f x = g x) l → mapM f l = mapM g l.
Proof.
  induction 1 as [|x l Hx _ IH]; [done|].
  by rewrite !mapM_cons, Hx, IH.
Qed.

(** ** Dict comprehensions *)

Section dict_lemmas.
Context `{Countable K} {V : Type}.
Implicit Types (kvs : list (K * V)).

Lemma dict_of_snoc kvs k v :
  dict_of (kvs ++ [(k, v)]) = <[k := v]> (dict_of kvs).
Proof. unfold dict_of. by rewrite foldl_snoc. Qed.

Lemma dict_of_lookup kvs k v :
  NoDup kvs.*1 → dict_of kvs !! k = Some v ↔ (k, v) ∈ kvs.
Proof.
  induction kvs as [|[k' v'] kvs IH] using rev_ind; intros Hnd.
  - unfold dict_of. simpl. rewrite lookup_empty.
    split; [done|]. by intros ?%elem_of_nil.
  - rewrite fmap_app in Hnd. apply NoDup_app in Hnd as (Hnd & Hfresh & _).
    rewrite dict_of_snoc, elem_of_app, list_elem_of_singleton.
    destruct (decide (k' = k)) as [->|Hne].
    + rewrite lookup_insert_eq. split.
      * intros [= ->]. by right.
      * intros [Hin|[= ->]]; [|done].
        exfalso. apply (Hfresh k); [|simpl; left].
        apply list_elem_of_fmap. by exists (k, v).
    + rewrite lookup_insert_ne by done. rewrite IH by done.
      split; [by left|]. intros [?|[= ? ?]]; [done|congruence].
Qed.

End dict_lemmas.

(** ** The codec *)

Module CodecFacts.
Import Codec.

Lemma enumerate_elem_of {A} (l : list A) (i : Z) (x : A) :
  (i, x) ∈ enumerate l ↔ ∃ n : nat, i = Z.of_nat n ∧ l !! n = Some x.
Proof.
  unfold enumerate. rewrite elem_of_lookup_imap. split.
  - intros (n & y & [= -> ->] & Hn). eauto.
  - intros (n & -> & Hn). eauto.
Qed.

Lemma enumerate_fst {A} (l : list A) :
  (enumerate l).*1 = Z.of_nat <$> seq 0 (length l).
Proof.
  unfold enumerate. rewrite fmap_imap.
  rewrite <-(imap_seq_0 l Z.of_nat). by apply imap_ext.
Qed.

Lemma enumerate_snd {A} (l : list A) : (enumerate l).*2 = l.
Proof.
  unfold enumerate. rewrite fmap_imap.
  rewrite (imap_ext _ (const (λ x, x))) by done.
  by rewrite imap_const, list_fmap_id.
Qed.

Section vocabulary.
Context (text : str) (v : Vocabulary) (Hv : build text = Ok v).

Lemma chars_eq : chars v = sorted (elements (list_to_set text : gset char)).
Proof using Hv. by injection Hv as <-. Qed.

Lemma chars_Permutation : chars v ≡ₚ elements (list_to_set text : gset char).
Proof using Hv. rewrite chars_eq. apply merge_sort_Permutation. Qed.

Lemma chars_NoDup : NoDup (chars v).
Proof using Hv. rewrite chars_Permutation. apply NoDup_elements. Qed.

Lemma chars_elem_of c : c ∈ chars v ↔ c ∈ text.
Proof using Hv.
  rewrite chars_Permutation, elem_of_elements. apply elem_of_list_to_set.
Qed.

(** The ids are assigned in ascending code-point order. *)
Lemma chars_Sorted : StronglySorted N.le (chars v).
Proof using Hv. rewrite chars_eq. apply StronglySorted_merge_sort; apply _. Qed.

Lemma vocab_size_eq : vocab_size v = Z.of_nat (length (chars v)).
Proof using Hv. by injection Hv as <-. Qed.

Lemma stoi_lookup c i :
  stoi v !! c = Some i ↔ ∃ n : nat, i = Z.of_nat n ∧ chars v !! n = Some c.
Proof using Hv.
  pose proof chars_NoDup as Hnd.
  rewrite <-enumerate_elem_of.
  injection Hv as <-. simpl in *.
  rewrite dict_of_lookup.
  - rewrite list_elem_of_fmap. split.
    + by intros ([i' c'] & [= -> ->] & Hin).
    + intros Hin. by exists (i, c).
  - rewrite <-list_fmap_compose.
    change (NoDup (enumerate (sorted (elements (list_to_set text : gset char)))).*2).
    by rewrite enumerate_snd.
Qed.

Lemma itos_lookup i c :
  itos v !! i = Some c ↔ ∃ n : nat, i = Z.of_nat n ∧ chars v !! n = Some c.
Proof using Hv.
  rewrite <-enumerate_elem_of.
  injection Hv as <-. simpl in *.
  rewrite dict_of_lookup.
  - rewrite list_elem_of_fmap. split.
    + by intros ([i' c'] & [= -> ->] & Hin).
    + intros Hin. by exists (i, c).
  - rewrite <-list_fmap_compose.
    change (NoDup (enumerate (sorted (elements (list_to_set text : gset char)))).*1).
    rewrite enumerate_fst. apply NoDup_fmap; [apply _|apply NoDup_seq].
Qed.

Lemma vocab_size_zero : vocab_size v = 0%Z ↔ text = [].
Proof using Hv.
  rewrite vocab_size_eq. split.
  - intros Hlen. apply elem_of_nil_inv. intros c Hc%chars_elem_of.
    destruct (chars v); [by apply elem_of_nil in Hc|simpl in Hlen; lia].
  - intros Ht. rewrite Ht in Hv. by injection Hv as <-.
Qed.

(** [stoi] and [itos] are inverse to each other. *)
Lemma stoi_itos c i : stoi v !! c = Some i ↔ itos v !! i = Some c.
Proof using Hv. by rewrite stoi_lookup, itos_lookup. Qed.

Lemma stoi_is_Some c : c ∈ text → ∃ i, stoi v !! c = Some i.
Proof using Hv.
  intros Hc%chars_elem_of. apply list_elem_of_lookup in Hc as [n Hn].
  exists (Z.of_nat n). apply stoi_lookup. eauto.
Qed.

Lemma itos_is_Some i : (0 ≤ i < vocab_size v)%Z → ∃ c, itos v !! i = Some c.
Proof using Hv.
  rewrite vocab_size_eq. intros Hi.
  destruct (lookup_lt_is_Some_2 (chars v) (Z.to_nat i)) as [c Hc]; [lia|].
  exists c. apply itos_lookup. exists (Z.to_nat i). split; [lia|done].
Qed.

Lemma encode_Ok_decode s ids : encode v s = Ok ids → decode v ids = Ok s.
Proof using Hv.
  unfold encode, decode. intros Hs%mapM_Ok_Forall2. apply mapM_Ok_Forall2.
  induction Hs as [|c i s ids Hc _ IH]; constructor; [|done].
  unfold getitem in *. destruct (stoi v !! c) as [i'|] eqn:Hi; [|done].
  injection Hc as ->. apply stoi_itos in Hi. by rewrite Hi.
Qed.

Lemma decode_Ok_encode ids s : decode v ids = Ok s → encode v s = Ok ids.
Proof using Hv.
  unfold encode, decode. intros Hs%mapM_Ok_Forall2. apply mapM_Ok_Forall2.
  induction Hs as [|i c ids s Hi _ IH]; constructor; [|done].
  unfold getitem in *. destruct (itos v !! i) as [c'|] eqn:Hc; [|done].
  injection Hi as ->. apply stoi_itos in Hc. by rewrite Hc.
Qed.

Lemma encode_is_Ok s : (∀ c, c ∈ s → c ∈ text) → ∃ ids, encode v s = Ok ids.
Proof using Hv.
  induction s as [|c s IH]; intros Hs; [by exists []|].
  destruct IH as [ids Hids]; [intros; apply Hs; by right|].
  destruct (stoi_is_Some c) as [i Hi]; [apply Hs; by left|].
  assert (getitem (stoi v) c = Ok i) as Hg by (unfold getitem; by rewrite Hi).
  exists (i :: ids). unfold encode in *. rewrite mapM_cons, Hg. simpl.
  by rewrite Hids.
Qed.

Lemma decode_is_Ok ids :
  Forall (λ i, 0 ≤ i < vocab_size v)%Z ids → ∃ s, decode v ids = Ok s.
Proof using Hv.
  induction 1 as [|i ids Hi _ [s Hs]]; [by exists []|].
  destruct (itos_is_Some i Hi) as [c Hc].
  assert (getitem (itos v) i = Ok c) as Hg by (unfold getitem; by rewrite Hc).
  exists (c :: s). unfold decode in *. rewrite mapM_cons, Hg. simpl.
  by rewrite Hs.
Qed.

End vocabulary.
End CodecFacts.

(** ** Sums, means and softmax over the reals *)

Module TorchFacts.
Import Torch.

Lemma Rsum_cons x l : Rsum (x :: l) = (x + Rsum l)%R.
Proof. reflexivity. Qed.

Lemma Rsum_nonneg l : Forall (λ x, 0 <= x)%R l → (0 <= Rsum l)%R.
Proof.
  induction 1 as [|x l Hx _ IH]; [simpl; lra|].
  rewrite Rsum_cons. lra.
Qed.

Lemma Rsum_pos l : l ≠ [] → Forall (λ x, 0 < x)%R l → (0 < Rsum l)%R.
Proof.
  intros Hne Hl. destruct Hl as [|x l Hx Hl]; [done|].
  rewrite Rsum_cons.
  assert (0 <= Rsum l)%R.
  { apply Rsum_nonneg. eapply Forall_impl; [done|]. simpl. intros; lra. }
  lra.
Qed.

Lemma Rsum_ge_elem l x :
  Forall (λ y, 0 <= y)%R l → x ∈ l → (x <= Rsum l)%R.
Proof.
  induction 1 as [|y l Hy Hl IH]; [by intros ?%elem_of_nil|].
  rewrite Rsum_cons. pose proof (Rsum_nonneg l Hl).
  intros [->|Hx]%elem_of_cons; [lra|]. specialize (IH Hx). lra.
Qed.

Lemma Rsum_opp l : Rsum (Ropp <$> l) = (- Rsum l)%R.
Proof.
  induction l as [|x l IH]; [simpl; lra|].
  rewrite fmap_cons, !Rsum_cons, IH. lra.
Qed.

Lemma mean_opp l : mean (Ropp <$> l) = scalar_neg (mean l).
Proof.
  destruct l as [|x l]; [done|].
  change (Fin (Rsum (Ropp <$> x :: l) / INR (length (Ropp <$> x :: l)))
          = Fin (- (Rsum (x :: l) / INR (length (x :: l))))).
  rewrite Rsum_opp, length_fmap. f_equal. unfold Rdiv. ring.
Qed.

Lemma mean_nonneg l :
  l ≠ [] → Forall (λ x, 0 <= x)%R l → ∃ r, mean l = Fin r ∧ (0 <= r)%R.
Proof.
  intros Hne Hl. destruct l as [|x l]; [done|].
  eexists. split; [reflexivity|].
  apply Rsum_nonneg in Hl.
  assert (0 < INR (length (x :: l)))%R by (apply lt_0_INR; simpl; lia).
  apply Rmult_le_pos; [done|]. left. by apply Rinv_0_lt_compat.
Qed.

Lemma exps_pos (x : list R) : Forall (λ y, 0 < y)%R (exp <$> x).
Proof. apply Forall_fmap, Forall_true. intros y. apply exp_pos. Qed.

Lemma Rsum_exp_pos (x : list R) : x ≠ [] → (0 < Rsum (exp <$> x))%R.
Proof.
  intros Hne. apply Rsum_pos; [|apply exps_pos].
  by destruct x.
Qed.

Lemma softmax_length x : length (softmax x) = length x.
Proof. unfold softmax. apply length_fmap. Qed.

Lemma softmax_pos x : Forall (λ p, 0 < p)%R (softmax x).
Proof.
  unfold softmax. apply Forall_fmap, Forall_forall. intros xi Hxi. simpl.
  assert (x ≠ []) as Hne by (intros ->; by apply elem_of_nil in Hxi).
  apply Rdiv_lt_0_compat; [apply exp_pos|by apply Rsum_exp_pos].
Qed.

(** On a non-empty row softmax is a distribution [torch.multinomial]
    accepts. *)
Lemma softmax_distribution x :
  x ≠ [] →
  Forall (λ p, 0 <= p)%R (softmax x) ∧ (0 < Rsum (softmax x))%R.
Proof.
  intros Hne. pose proof (softmax_pos x) as Hpos. split.
  - eapply Forall_impl; [done|]. simpl. intros; lra.
  - apply Rsum_pos; [|done]. destruct x; [done|]. by unfold softmax.
Qed.

Lemma log_softmax_lookup x n :
  log_softmax x !! n = ln <$> (softmax x !! n).
Proof.
  unfold log_softmax, softmax. rewrite !list_lookup_fmap.
  by destruct (x !! n).
Qed.

(** Every log-probability is at most [0]. *)
Lemma log_softmax_nonpos x n v :
  log_softmax x !! n = Some v → (v <= 0)%R.
Proof.
  unfold log_softmax. rewrite list_lookup_fmap.
  destruct (x !! n) as [xi|] eqn:Hn; [|done]. intros [= <-].
  assert (x ≠ []) as Hne by (intros ->; done).
  pose proof (Rsum_exp_pos x Hne) as Hs. pose proof (exp_pos xi) as Hxi.
  assert (exp xi <= Rsum (exp <$> x))%R as Hle.
  { apply Rsum_ge_elem.
    - eapply Forall_impl; [apply exps_pos|]. simpl. intros; lra.
    - apply list_elem_of_fmap. exists xi. split; [done|].
      by eapply list_elem_of_lookup_2. }
  rewrite <-ln_1. 
  destruct (Req_dec (exp xi / Rsum (exp <$> x)) 1) as [->|Hne1]; [lra|].
  left. apply ln_increasing.
  - by apply Rdiv_lt_0_compat.
  - assert (exp xi / Rsum (exp <$> x) <= 1)%R; [|lra].
    assert (0 < / Rsum (exp <$> x))%R as Hinv by by apply Rinv_0_lt_compat.
    assert (Rsum (exp <$> x) * / Rsum (exp <$> x) = 1)%R as Hone
      by (apply Rinv_r; lra).
    unfold Rdiv. nra.
Qed.

Lemma index_Ok {A} (l : list A) i a :
  index l i = Ok a ↔
  (0 ≤ i < Z.of_nat (length l))%Z ∧ l !! Z.to_nat i = Some a.
Proof.
  unfold index. case_decide as Hi.
  - destruct (l !! Z.to_nat i) eqn:Hl.
    + split; [by intros [= ->]|by intros [_ [= ->]]].
    + split; [done|by intros [_ ?]].
  - split; [done|by intros [? _]].
Qed.

Lemma index_in_range `{Inhabited A} (l : list A) i :
  (0 ≤ i < Z.of_nat (length l))%Z → index l i = Ok (l !!! Z.to_nat i).
Proof.
  intros Hi. apply index_Ok. split; [done|].
  apply list_lookup_lookup_total_lt. lia.
Qed.

Lemma index_out_of_range {A} (l : list A) i :
  ¬ (0 ≤ i < Z.of_nat (length l))%Z → index l i = Raise IndexError.
Proof. intros Hi. unfold index. by case_decide. Qed.

End TorchFacts.

(** ** Tensors as nested lists *)

Section tensor_lemmas.
Context {A B C : Type} `{!Inhabited A, !Inhabited B}.
Implicit Types (f : A → B → C).

Lemma bind_fmap_S {D} (g : nat → list D) (l : list nat) :
  (S <$> l) ≫= g = l ≫= (g ∘ S).
Proof.
  induction l as [|x l IH]; [done|].
  by rewrite fmap_cons, !bind_cons, IH.
Qed.

(** Reading a row position by position is reading it in order. *)
Lemma row_positions f (r : list A) (s : list B) n :
  length r = n → length s = n →
  (λ t, f (r !!! t) (s !!! t)) <$> seq 0 n = (λ p, f p.1 p.2) <$> zip r s.
Proof.
  revert s n. induction r as [|a r IH]; intros [|b s] [|n] Hr Hs;
    simplify_eq/=; [done|].
  f_equal. rewrite <-fmap_S_seq, <-list_fmap_compose.
  by apply IH.
Qed.

(** [view(B*T, ...)] of a [(B,T)] layout enumerates the positions
    [(b, t)] in row-major order. *)
Lemma view_positions f (l : list (list A)) (m : list (list B)) nB nT :
  Bigram.has_shape nB nT l → Bigram.has_shape nB nT m →
  seq 0 nB ≫= (λ b, (λ t, f ((l !!! b) !!! t) ((m !!! b) !!! t)) <$> seq 0 nT)
  = (λ p, f p.1 p.2) <$> zip (concat l) (concat m).
Proof.
  intros [Hl Hrl] [Hm Hrm]. revert m nB Hl Hm Hrm.
  induction Hrl as [|r l Hr _ IH]; intros [|s m] [|nB] Hl Hm Hrm;
    simplify_eq/=; [done|].
  apply Forall_cons in Hrm as [Hs Hrm].
  rewrite zip_with_app by congruence. rewrite fmap_app. f_equal.
  - by apply row_positions.
  - rewrite <-fmap_S_seq, bind_fmap_S. by apply IH.
Qed.

End tensor_lemmas.

Lemma omap_fmap_Some {A B} (k : A → B) (l : list A) :
  omap (λ o, o) ((λ x, Some (k x)) <$> l) = k <$> l.
Proof. induction l as [|x l IH]; [done|]. csimpl. by rewrite IH. Qed.

Lemma concat_length_eq {A B} (l : list (list A)) (m : list (list B)) n k :
  Bigram.has_shape n k l → Bigram.has_shape n k m →
  length (concat l) = length (concat m).
Proof.
  intros [Hl Hrl] [Hm Hrm]. revert m n Hl Hm Hrm.
  induction Hrl as [|r l Hr _ IH]; intros [|s m] [|n] Hl Hm Hrm;
    simplify_eq/=; [done|].
  apply Forall_cons in Hrm as [Hs Hrm].
  rewrite !length_app. f_equal; [congruence|]. by eapply IH.
Qed.

Lemma Forall_concat_2 {A} (P : A → Prop) (l : list (list A)) :
  Forall (Forall P) l → Forall P (concat l).
Proof.
  induction 1 as [|r l Hr _ IH]; simpl; [done|]. by apply Forall_app.
Qed.

(** ** [forward]: the lookup and the loss *)

Module ForwardFacts.
Import Torch Bigram TorchFacts.

Lemma embedding_valid (w : list (list R)) (idx : list (list Z)) :
  Forall (valid_ids (length w)) idx →
  embedding w idx = Ok (map (map (λ i, w !!! Z.to_nat i)) idx).
Proof.
  intros Hidx. unfold embedding. apply mapM_Ok_fmap.
  eapply Forall_impl; [exact Hidx|]. intros row Hrow. simpl.
  apply mapM_Ok_fmap. eapply Forall_impl; [exact Hrow|].
  intros i Hi. simpl in *. by apply index_in_range.
Qed.

(** An id outside the table makes the lookup raise. *)
Lemma embedding_invalid (w : list (list R)) (idx : list (list Z)) row i :
  row ∈ idx → i ∈ row → ¬ (0 ≤ i < Z.of_nat (length w))%Z →
  ∃ e, embedding w idx = Raise e.
Proof.
  intros Hrow Hi Hout. unfold embedding.
  destruct (mapM_Raise (index w) row i IndexError Hi) as [e He].
  { by apply index_out_of_range. }
  by eapply mapM_Raise.
Qed.

Lemma embedding_shape (w : list (list R)) (idx : list (list Z)) nB nT size :
  has_shape size size w → has_shape nB nT idx →
  Forall (valid_ids size) idx →
  has_shape3 nB nT size (map (map (λ i, w !!! Z.to_nat i)) idx).
Proof.
  intros [Hw Hrows] [HB HT] Hv.
  split; [by rewrite length_map|].
  apply Forall_fmap, Forall_forall. intros row Hrow. simpl.
  split.
  - rewrite length_map. by eapply (proj1 (Forall_forall _ _) HT).
  - apply Forall_fmap, Forall_forall. intros i Hi. simpl.
    eapply (proj1 (Forall_forall _ _) Hrows).
    apply list_elem_of_lookup_total_2.
    eapply (proj1 (Forall_forall _ _)) in Hv; [|exact Hrow].
    eapply (proj1 (Forall_forall _ _)) in Hv; [|exact Hi].
    simpl in Hv. lia.
Qed.

Lemma log_softmax_total (x : list R) (n : nat) :
  n < length x → log_softmax x !!! n = ln (softmax x !!! n).
Proof.
  intros Hn. unfold log_softmax, softmax.
  destruct (lookup_lt_is_Some_2 x n Hn) as [xi Hxi].
  rewrite (list_lookup_total_correct _ n (ln (exp xi / Rsum (exp <$> x)))).
  - rewrite (list_lookup_total_correct _ n (exp xi / Rsum (exp <$> x))%R);
      [done|].
    by rewrite list_lookup_fmap, Hxi.
  - by rewrite list_lookup_fmap, Hxi.
Qed.

Lemma nll_term_valid (x : list R) (y : Z) size :
  length x = size → (0 ≤ y < Z.of_nat size)%Z →
  nll_term (log_softmax x) y
  = Ok (Some (- ln (softmax x !!! Z.to_nat y))%R).
Proof.
  intros Hx Hy. unfold nll_term, ignore_index. case_decide; [lia|].
  rewrite index_in_range.
  - simpl. rewrite log_softmax_total by lia. done.
  - unfold log_softmax. rewrite length_fmap. lia.
Qed.

(** The terms [F.cross_entropy] averages, on class ids in range. *)
Lemma cross_entropy_terms (input : list (list R)) (target : list Z) size :
  length input = length target →
  Forall (λ x, length x = size) input → valid_ids size target →
  cross_entropy input target
  = Ok (mean ((λ p, - ln (softmax p.1 !!! Z.to_nat p.2))%R
                <$> zip input target)).
Proof.
  intros Hlen Hin Htg. unfold cross_entropy. case_decide; [|done].
  rewrite (mapM_Ok_fmap _
             (λ p, Some (- ln (softmax p.1 !!! Z.to_nat p.2))%R)).
  - simpl. by rewrite omap_fmap_Some.
  - apply Forall_forall. intros [x y] Hxy. simpl.
    apply (nll_term_valid _ _ size).
    + eapply (proj1 (Forall_forall _ _) Hin). by eapply elem_of_zip_l.
    + eapply (proj1 (Forall_forall _ _) Htg). by eapply elem_of_zip_r.
Qed.

Lemma cross_entropy_term_nonneg (x : list R) (y : Z) size :
  length x = size → (0 ≤ y < Z.of_nat size)%Z →
  (0 <= - ln (softmax x !!! Z.to_nat y))%R.
Proof.
  intros Hx Hy. rewrite <-log_softmax_total by lia.
  assert (log_softmax x !!! Z.to_nat y <= 0)%R; [|lra].
  eapply log_softmax_nonpos. apply list_lookup_lookup_total_lt.
  unfold log_softmax. rewrite length_fmap. lia.
Qed.

End ForwardFacts.

(** ** [generate]: the sampling loop *)

Lemma Forall2_compose {A B C} (P : A → B → Prop) (Q : B → C → Prop)
    (S : A → C → Prop) (l : list A) (k : list B) (m : list C) :
  (∀ x y z, P x y → Q y z → S x z) →
  Forall2 P l k → Forall2 Q k m → Forall2 S l m.
Proof.
  intros HS Hlk. revert m.
  induction Hlk as [|x y l k Hxy _ IH]; intros m Hkm.
  - apply Forall2_nil_inv_l in Hkm as ->. constructor.
  - apply Forall2_cons_inv_l in Hkm as (z & m' & Hyz & Hkm & ->).
    constructor; eauto.
Qed.

Module GenerateFacts.
Import Torch Bigram TorchFacts ForwardFacts.

Lemma select_last_fmap {A} (h : A → list R) (x : list (list A)) :
  (l ← select_last (map (map h) x); Ok (map softmax l))
  = mapM (λ row, match last row with
                 | Some a => Ok (softmax (h a))
                 | None => Raise IndexError
                 end) x.
Proof.
  unfold select_last. induction x as [|row x IH]; [done|].
  rewrite map_cons, !mapM_cons.
  change (map h row) with (h <$> row). rewrite fmap_last.
  destruct (last row) as [a|]; [|done]. simpl.
  rewrite <-IH. by destruct (mapM _ (map (map h) x)).
Qed.

Section next_probs.
Context (self : BigramLanguageModel) (size : nat).
Context (Hwf : well_formed size self).
Let w := weight (token_embedding_table self).

Lemma next_probs_rows (idx : list (list Z)) :
  Forall (valid_ids size) idx →
  next_probs self idx = mapM (row_probs w) idx.
Proof using Hwf.
  intros Hidx. destruct Hwf as (_ & _ & Hlen & _).
  unfold next_probs, forward.
  rewrite embedding_valid by by rewrite Hlen.
  simpl. by rewrite select_last_fmap.
Qed.

Lemma table_row_length (i : Z) :
  (0 ≤ i < Z.of_nat size)%Z → length (w !!! Z.to_nat i) = size.
Proof using Hwf.
  destruct Hwf as (_ & _ & Hlen & Hrows). intros Hi.
  eapply (proj1 (Forall_forall _ _) Hrows).
  apply list_elem_of_lookup_total_2. unfold w. lia.
Qed.

Lemma row_probs_Ok_inv (row : list Z) (p : list R) :
  valid_ids size row → row_probs w row = Ok p → length p = size.
Proof using Hwf.
  intros Hrow. unfold row_probs.
  destruct (last row) as [i|] eqn:Hlast; [|done]. intros [= <-].
  rewrite softmax_length. apply table_row_length.
  eapply (proj1 (Forall_forall _ _) Hrow). by eapply last_Some_elem_of.
Qed.

Lemma row_probs_total (row : list Z) :
  valid_ids size row → row ≠ [] →
  ∃ p, row_probs w row = Ok p ∧
       Forall (λ x, 0 <= x)%R p ∧ (0 < Rsum p)%R.
Proof using Hwf.
  intros Hrow Hne. unfold row_probs.
  destruct (last row) as [i|] eqn:Hlast;
    [|by apply last_None in Hlast].
  eexists. split; [done|]. apply softmax_distribution.
  assert (0 ≤ i < Z.of_nat size)%Z as Hi.
  { eapply (proj1 (Forall_forall _ _) Hrow). by eapply last_Some_elem_of. }
  pose proof (table_row_length i Hi) as Hlen.
  intros Hnil. rewrite Hnil in Hlen. simpl in Hlen. lia.
Qed.

End next_probs.
Lemma appended_valid (size : nat) (idx idx1 : list (list Z)) :
  Forall2 (λ row row', ∃ i,
             row' = row ++ [i] ∧ (0 ≤ i < Z.of_nat size)%Z) idx idx1 →
  Forall (valid_ids size) idx →
  Forall (valid_ids size) idx1 ∧ Forall (λ row, row ≠ []) idx1.
Proof.
  induction 1 as [|row row1 idx idx1 (i & -> & Hi) _ IH]; [done|].
  intros [Hrow Hidx]%Forall_cons. destruct (IH Hidx) as [Hv Hne].
  split; constructor; try done.
  - apply Forall_app. split; [done|]. constructor; [done|constructor].
  - by destruct row.
Qed.

Section sampling.
Context {G : Type} (draw : G → list R → result (Z * G)).
Context (Hdraw : draw_ok draw).

Lemma multinomial_Ok_inv probs g nxt g' :
  multinomial draw probs g = Ok (nxt, g') →
  Forall2 (λ p n, ∃ i, n = [i] ∧ (0 ≤ i < Z.of_nat (length p))%Z) probs nxt.
Proof using Hdraw.
  revert g nxt. induction probs as [|p probs IH]; intros g nxt; simpl.
  - intros [= <- <-]. constructor.
  - destruct (draw g p) as [[i g1]|] eqn:Hi; [|done]. simpl.
    destruct (multinomial draw probs g1) as [[rest g2]|] eqn:Hrest; [|done].
    simpl. intros [= <- <-]. constructor; [|by eapply IH].
    exists i. split; [done|]. by eapply (draw_range _ Hdraw).
Qed.

Lemma multinomial_total probs g :
  Forall (λ p, Forall (λ x, 0 <= x)%R p ∧ (0 < Rsum p)%R) probs →
  ∃ nxt g', multinomial draw probs g = Ok (nxt, g').
Proof using Hdraw.
  intros Hprobs. revert g.
  induction Hprobs as [|p probs [Hp Hsum] _ IH]; intros g; simpl.
  - by eexists _, _.
  - destruct (draw_total _ Hdraw g p Hp Hsum) as (i & g1 & ->). simpl.
    destruct (IH g1) as (rest & g2 & ->). simpl. by eexists _, _.
Qed.

Context (self : BigramLanguageModel) (size : nat).
Context (Hwf : well_formed size self).

(** One iteration appends one id of the vocabulary to every row. *)
Lemma generate_step_inv idx g idx' g' :
  Forall (valid_ids size) idx →
  generate_step draw self idx g = Ok (idx', g') →
  Forall2 (λ row row', ∃ i,
             row' = row ++ [i] ∧ (0 ≤ i < Z.of_nat size)%Z) idx idx'.
Proof using Hdraw Hwf.
  intros Hidx. unfold generate_step.
  rewrite (next_probs_rows self size Hwf) by done.
  destruct (mapM _ idx) as [probs|] eqn:Hprobs; [|done]. simpl.
  destruct (multinomial draw probs g) as [[nxt g1]|] eqn:Hnxt; [|done].
  simpl. unfold cat1. case_decide; [|done]. simpl. intros [= <- <-].
  apply mapM_Ok_Forall2 in Hprobs. apply multinomial_Ok_inv in Hnxt.
  clear g g1 H. revert nxt Hnxt.
  induction Hprobs as [|row p idx probs Hp _ IH]; intros nxt Hnxt.
  - apply Forall2_nil_inv_l in Hnxt as ->. constructor.
  - apply Forall2_cons_inv_l in Hnxt as (n & nxt' & (i & -> & Hi) & Hnxt & ->).
    apply Forall_cons in Hidx as [Hrow Hidx]. simpl.
    constructor; [|by apply IH].
    exists i. split; [done|].
    by rewrite (row_probs_Ok_inv self size Hwf row p) in Hi.
Qed.

(** On non-empty rows the iteration does not raise. *)
Lemma generate_step_total idx g :
  Forall (valid_ids size) idx → Forall (λ row, row ≠ []) idx →
  ∃ idx' g', generate_step draw self idx g = Ok (idx', g').
Proof using Hdraw Hwf.
  intros Hidx Hne. unfold generate_step.
  rewrite (next_probs_rows self size Hwf) by done.
  assert (∃ probs, mapM (row_probs (weight (token_embedding_table self))) idx
                   = Ok probs ∧
            Forall (λ p, Forall (λ x, 0 <= x)%R p ∧ (0 < Rsum p)%R) probs)
    as (probs & Hprobs & Hdist).
  { clear g. induction Hidx as [|row idx Hrow Hidx IH].
    - by exists [].
    - apply Forall_cons in Hne as [Hrow_ne Hne].
      destruct (IH Hne) as (probs & Hprobs & Hdist).
      destruct (row_probs_total self size Hwf row Hrow Hrow_ne)
        as (p & Hp & Hpd).
      exists (p :: probs). split; [|by constructor].
      rewrite mapM_cons, Hp. simpl. by rewrite Hprobs. }
  rewrite Hprobs. simpl.
  destruct (multinomial_total probs g Hdist) as (nxt & g1 & Hnxt).
  rewrite Hnxt. simpl. unfold cat1.
  apply mapM_Ok_length in Hprobs.
  apply multinomial_Ok_inv, Forall2_length in Hnxt.
  case_decide; [|congruence]. simpl. by eexists _, _.
Qed.

(** [n] iterations append [n] ids of the vocabulary to every row. *)
Lemma generate_loop_inv n idx g idx' g' :
  Forall (valid_ids size) idx →
  generate_loop draw self n idx g = Ok (idx', g') →
  Forall2 (λ row row', ∃ new,
             row' = row ++ new ∧ length new = n ∧ valid_ids size new)
          idx idx'.
Proof using Hdraw Hwf.
  revert idx g. induction n as [|n IH]; intros idx g Hidx; simpl.
  - intros [= <- <-]. apply Forall_Forall2_diag.
    apply Forall_true. intros row. exists []. rewrite app_nil_r.
    repeat split. constructor.
  - destruct (generate_step draw self idx g) as [[idx1 g1]|] eqn:Hstep;
      [|done].
    simpl. intros Hloop.
    pose proof (generate_step_inv _ _ _ _ Hidx Hstep) as H1.
    destruct (appended_valid _ _ _ H1 Hidx) as [Hidx1 _].
    eapply Forall2_compose; [|exact H1|exact (IH _ _ Hidx1 Hloop)].
    intros row row1 row' (i & -> & Hi) (new & -> & Hlen & Hnew).
    exists (i :: new). rewrite <-app_assoc. simpl.
    split; [done|]. split; [by rewrite Hlen|]. by constructor.
Qed.

Lemma generate_loop_total n idx g :
  Forall (valid_ids size) idx → Forall (λ row, row ≠ []) idx →
  ∃ idx' g', generate_loop draw self n idx g = Ok (idx', g').
Proof using Hdraw Hwf.
  revert idx g. induction n as [|n IH]; intros idx g Hidx Hne; simpl.
  - by eexists _, _.
  - destruct (generate_step_total idx g Hidx Hne) as (idx1 & g1 & Hstep).
    rewrite Hstep. simpl.
    pose proof (generate_step_inv _ _ _ _ Hidx Hstep) as H1.
    destruct (appended_valid _ _ _ H1 Hidx) as [Hidx1 Hne1].
    by apply IH.
Qed.

(** An empty context has no last position to read. *)
Lemma generate_step_empty_row idx g :
  Forall (valid_ids size) idx → [] ∈ idx →
  ∃ e, generate_step draw self idx g = Raise e.
Proof using Hwf.
  intros Hidx Hin. unfold generate_step.
  rewrite (next_probs_rows self size Hwf) by done.
  destruct (mapM_Raise (row_probs (weight (token_embedding_table self)))
              idx [] IndexError Hin) as [e ->]; [done|].
  by eexists.
Qed.

End sampling.
End GenerateFacts.

(** ** The small instance *)

Module DemoFacts.
Import Torch Bigram Demo.

Lemma build_corpus : Codec.build corpus = Ok vocab.
Proof. vm_compute. reflexivity. Qed.

Lemma model_well_formed : well_formed 2 model.
Proof. repeat split; repeat constructor. Qed.

Lemma round_robin_ok : draw_ok round_robin.
Proof.
  split.
  - intros g [|x p] i g'; [done|]. intros [= <- <-].
    pose proof (Nat.mod_upper_bound g (length (x :: p))) as Hlt.
    simpl in *. lia.
  - intros g [|x p] _ Hsum.
    + simpl in Hsum. lra.
    + by eexists _, _.
Qed.

End DemoFacts.

(** * The claims *)

(** ** Vocabulary codec *)

(** C6. For a vocabulary built from a corpus and a text all of whose
    characters occur in the corpus, [encode] returns a list of ids and
    [decode] of that list returns the text:
    [decode(encode(text)) == text]. *)
Theorem decode_encode_roundtrip
    (corpus text : Codec.str) (v : Codec.Vocabulary) :
  Codec.build corpus = Ok v →
  Forall (λ c, c ∈ corpus) text →
  Codec.encode v text ≫= Codec.decode v = Ok text.
Proof.
  intros Hv Htext.
  destruct (CodecFacts.encode_is_Ok corpus v Hv text) as [ids Hids].
  { intros c Hc. by eapply (proj1 (Forall_forall _ _) Htext). }
  rewrite Hids. simpl. by eapply CodecFacts.encode_Ok_decode.
Qed.

Lemma decode_encode_roundtrip_witness :
  Codec.encode Demo.vocab [97; 98; 98]%N ≫= Codec.decode Demo.vocab
  = Ok [97; 98; 98]%N.
Proof.
  apply (decode_encode_roundtrip Demo.corpus [97; 98; 98]%N Demo.vocab).
  - vm_compute. reflexivity.
  - unfold Demo.corpus. repeat constructor.
Defined.

(** C7, as the code has it. Building the vocabulary never fails: for
    every corpus [build] returns a vocabulary, whose size is [0]
    exactly when the corpus is empty. *)
Theorem build_never_fails (corpus : Codec.str) :
  ∃ v, Codec.build corpus = Ok v ∧
       (Codec.vocab_size v = 0%Z ↔ corpus = []).
Proof.
  exists (match Codec.build corpus with
          | Ok v => v
          | Raise _ => Demo.vocab
          end).
  split; [reflexivity|].
  by apply (CodecFacts.vocab_size_zero corpus).
Qed.

(** C7, counterexample: the empty corpus builds the vocabulary of
    size [0]; nothing is raised. *)
Lemma build_empty_corpus :
  Codec.build [] = Ok {| Codec.chars := []; Codec.vocab_size := 0;
                         Codec.stoi := ∅; Codec.itos := ∅ |}.
Proof. reflexivity. Qed.

(** C10. For a vocabulary built from a corpus, [stoi] and [itos] are
    inverse to each other, [stoi] is defined exactly on the characters
    of the corpus and [itos] exactly on the ids in [0, size); hence for
    every list of ids in [0, size), [encode(decode(ids)) == ids]. *)
Theorem encode_decode_roundtrip
    (corpus : Codec.str) (ids : list Z) (v : Codec.Vocabulary) :
  Codec.build corpus = Ok v →
  Forall (λ i, 0 ≤ i < Codec.vocab_size v)%Z ids →
  (∀ c i, Codec.stoi v !! c = Some i ↔ Codec.itos v !! i = Some c) ∧
  (∀ c, c ∈ corpus ↔ is_Some (Codec.stoi v !! c)) ∧
  (∀ i, (0 ≤ i < Codec.vocab_size v)%Z ↔ is_Some (Codec.itos v !! i)) ∧
  Codec.decode v ids ≫= Codec.encode v = Ok ids.
Proof.
  intros Hv Hids. split; [|split; [|split]].
  - apply (CodecFacts.stoi_itos corpus v Hv).
  - intros c. split.
    + intros Hc. destruct (CodecFacts.stoi_is_Some corpus v Hv c Hc); eauto.
    + intros [i Hi]. apply (CodecFacts.stoi_lookup corpus v Hv) in Hi
        as (n & -> & Hn).
      apply (CodecFacts.chars_elem_of corpus v Hv).
      by eapply list_elem_of_lookup_2.
  - intros i. split.
    + intros Hi. destruct (CodecFacts.itos_is_Some corpus v Hv i Hi); eauto.
    + intros [c Hc]. apply (CodecFacts.itos_lookup corpus v Hv) in Hc
        as (n & -> & Hn).
      rewrite (CodecFacts.vocab_size_eq corpus v Hv).
      apply lookup_lt_Some in Hn. lia.
  - destruct (CodecFacts.decode_is_Ok corpus v Hv ids Hids) as [s Hs].
    rewrite Hs. simpl. by eapply CodecFacts.decode_Ok_encode.
Qed.

Lemma encode_decode_roundtrip_witness :
  Codec.decode Demo.vocab [1; 0; 1]%Z ≫= Codec.encode Demo.vocab
  = Ok [1; 0; 1]%Z.
Proof.
  apply (encode_decode_roundtrip Demo.corpus [1; 0; 1]%Z Demo.vocab).
  - vm_compute. reflexivity.
  - simpl. repeat constructor; lia.
Defined.

(** ** Bigram predictor: scoring and loss *)

Section forward_claims.
Import Torch Bigram TorchFacts ForwardFacts.

(** C1. For a model whose table is [size × size] and an index matrix
    of shape [(B,T)] with all ids in [0, size), [forward] without
    targets returns, with no loss, a tensor of shape [(B,T,size)] that
    is the table looked up id by id: the vector at position [(b,t)] is
    row [idx[b][t]] of the table. *)
Theorem score_is_row_lookup
    (self : BigramLanguageModel) (size nB nT : nat) (idx : list (list Z)) :
  well_formed size self →
  has_shape nB nT idx →
  Forall (valid_ids size) idx →
  let w := weight (token_embedding_table self) in
  ∃ logits,
    forward self idx None = Ok (Logits3 logits, None) ∧
    logits = map (map (λ i, w !!! Z.to_nat i)) idx ∧
    has_shape3 nB nT size logits ∧
    ∀ b t i, idx !! b ≫= (.!! t) = Some i →
      ∃ row, w !! Z.to_nat i = Some row ∧ logits !! b ≫= (.!! t) = Some row.
Proof.
  intros (Hnum & Hdim & Hlen & Hrows) Hidx Hvalid w. subst w.
  set (w := weight (token_embedding_table self)) in *.
  eexists. split; [|split; [reflexivity|split]].
  - unfold forward. fold w.
    rewrite embedding_valid by (by rewrite Hlen). done.
  - by apply embedding_shape.
  - intros b t i Hbt.
    destruct (idx !! b) as [row|] eqn:Hb; [|done]. simpl in Hbt.
    assert (0 ≤ i < Z.of_nat size)%Z as Hi.
    { eapply (proj1 (Forall_forall _ _)
                (proj1 (Forall_forall _ _) Hvalid row _)).
      by eapply list_elem_of_lookup_2. }
    exists (w !!! Z.to_nat i). split.
    + apply list_lookup_lookup_total_lt. lia.
    + change (map ?f ?l) with (f <$> l).
      rewrite list_lookup_fmap, Hb. simpl.
      change (map ?f ?l) with (f <$> l).
      by rewrite list_lookup_fmap, Hbt.
  Unshelve. by eapply list_elem_of_lookup_2.
Qed.

(** C2. For logits of shape [(B,T,size)] and targets of shape [(B,T)]
    with all entries in [0, size), the loss branch of [forward] returns
    the logits reshaped to [(B*T,size)] and, as loss,
    [-mean(log(softmax(logits)[b,t,targets[b,t]]))] over all positions. *)
Theorem loss_is_mean_cross_entropy
    (size nB nT : nat) (logits : list (list (list R)))
    (targets : list (list Z)) :
  has_shape3 nB nT size logits →
  has_shape nB nT targets →
  Forall (valid_ids size) targets →
  loss_branch logits targets
  = Ok (concat logits, Spec.loss nB nT logits targets).
Proof.
  intros [HB Hlogits] Htargets Hvalid.
  assert (has_shape nB nT logits) as Hrows.
  { split; [done|]. eapply Forall_impl; [exact Hlogits|]. by intros m [? _]. }
  unfold loss_branch.
  pose proof (concat_length_eq _ _ _ _ Hrows Htargets) as Hlen.
  case_decide; [|congruence].
  rewrite (cross_entropy_terms _ _ size); [|done|..].
  - simpl. do 2 f_equal. unfold Spec.loss.
    rewrite (view_positions (λ x y, ln (softmax x !!! Z.to_nat y))
               logits targets nB nT Hrows Htargets).
    rewrite <-mean_opp, <-list_fmap_compose. done.
  - apply Forall_concat_2. eapply Forall_impl; [exact Hlogits|].
    by intros m [_ ?].
  - by apply Forall_concat_2.
Qed.

(** C8, as the code has it. For a model whose table is [size × size]
    and a non-empty batch (B ≥ 1, T ≥ 1) of inputs and targets, both of
    shape [(B,T)] with all ids in [0, size), the logits of [forward]
    without targets have shape [(B,T,size)], and [forward] with
    targets raises nothing and returns a loss that is not [NaN] and
    not negative. The loss is computed over the reals: that the
    floating-point value is finite is not stated (it overflows to
    infinity on logits of extreme magnitude). *)
Theorem valid_batch_shape_and_loss
    (self : BigramLanguageModel) (size nB nT : nat)
    (idx targets : list (list Z)) :
  well_formed size self →
  has_shape nB nT idx → has_shape nB nT targets →
  Forall (valid_ids size) idx → Forall (valid_ids size) targets →
  0 < nB → 0 < nT →
  ∃ logits logits2 r,
    forward self idx None = Ok (Logits3 logits, None) ∧
    has_shape3 nB nT size logits ∧
    forward self idx (Some targets) = Ok (Logits2 logits2, Some (Fin r)) ∧
    (0 <= r)%R.
Proof.
  intros (Hnum & Hdim & Hlen & Hrows) Hidx Htargets Hvalid Htvalid HB HT.
  pose proof (embedding_shape _ _ _ _ _ (conj Hlen Hrows) Hidx Hvalid)
    as Hshape.
  set (logits := map (map (λ i, weight (token_embedding_table self)
                                  !!! Z.to_nat i)) idx) in *.
  assert (forward self idx None = Ok (Logits3 logits, None)) as Hfwd.
  { unfold forward. rewrite embedding_valid by (by rewrite Hlen). done. }
  assert (has_shape nB nT logits) as Hlrows.
  { destruct Hshape as [? Hl]. split; [done|].
    eapply Forall_impl; [exact Hl|]. by intros m [? _]. }
  assert (Forall (λ x, length x = size) (concat logits)) as Hcols.
  { apply Forall_concat_2. destruct Hshape as [_ Hl].
    eapply Forall_impl; [exact Hl|]. by intros m [_ ?]. }
  pose proof (Forall_concat_2 _ _ Htvalid) as Hcvalid.
  pose proof (concat_length_eq _ _ _ _ Hlrows Htargets) as Hclen.
  destruct (mean_nonneg
              ((λ p, - ln (softmax p.1 !!! Z.to_nat p.2))%R
                 <$> zip (concat logits) (concat targets)))
    as (r & Hr & Hpos).
  - destruct Htargets as [Hn Hrow]. destruct targets as [|row targets];
      [simpl in Hn; lia|].
    apply Forall_cons in Hrow as [Hrow _].
    destruct row as [|y row]; [simpl in Hrow; lia|].
    destruct (concat logits) as [|x l]; [done|]. done.
  - apply Forall_fmap, Forall_forall. intros [x y] Hxy. simpl.
    apply (cross_entropy_term_nonneg x y size).
    + eapply (proj1 (Forall_forall _ _) Hcols). by eapply elem_of_zip_l.
    + eapply (proj1 (Forall_forall _ _) Hcvalid). by eapply elem_of_zip_r.
  - exists logits, (concat logits), r.
    split; [done|]. split; [done|]. split; [|done].
    unfold forward. rewrite embedding_valid by (by rewrite Hlen).
    simpl. fold logits. unfold loss_branch.
    case_decide; [|congruence].
    rewrite (cross_entropy_terms _ _ size) by done.
    simpl. by rewrite Hr.
Qed.

End forward_claims.

Section forward_witnesses.
Import Torch Bigram.

Lemma score_is_row_lookup_witness :
  ∃ logits,
    forward Demo.model [[0; 1; 1]%Z] None = Ok (Logits3 logits, None) ∧
    has_shape3 1 3 2 logits.
Proof.
  destruct (score_is_row_lookup Demo.model 2 1 3 [[0; 1; 1]%Z])
    as (logits & Hfwd & _ & Hshape & _).
  - repeat split; repeat constructor.
  - repeat split; repeat constructor.
  - repeat constructor; lia.
  - exists logits. split; assumption.
Defined.

Lemma loss_is_mean_cross_entropy_witness :
  loss_branch [[[1; 2]; [3; 4]]]%R [[0; 1]%Z]
  = Ok ([[1; 2]; [3; 4]]%R,
        Spec.loss 1 2 [[[1; 2]; [3; 4]]]%R [[0; 1]%Z]).
Proof.
  apply (loss_is_mean_cross_entropy 2 1 2).
  - repeat split; repeat constructor.
  - repeat split; repeat constructor.
  - repeat constructor; lia.
Defined.

Lemma valid_batch_shape_and_loss_witness :
  ∃ logits2 r,
    forward Demo.model [[0; 1]%Z] (Some [[1; 0]%Z])
    = Ok (Logits2 logits2, Some (Fin r)) ∧ (0 <= r)%R.
Proof.
  destruct (valid_batch_shape_and_loss Demo.model 2 1 2
              [[0; 1]%Z] [[1; 0]%Z])
    as (logits & logits2 & r & _ & _ & Hloss & Hr).
  - repeat split; repeat constructor.
  - repeat split; repeat constructor.
  - repeat split; repeat constructor.
  - repeat constructor; lia.
  - repeat constructor; lia.
  - lia.
  - lia.
  - exists logits2, r. split; assumption.
Defined.

(** C8, counterexamples. The batch with no row is of shape [(0,8)]
    with all ids in range, and its loss is [NaN]; a batch whose target
    is not an id of the vocabulary has the shape of its input, and its
    loss raises. *)
Lemma degenerate_batches_have_no_loss :
  (has_shape 0 8 ([] : list (list Z)) ∧
   forward Demo.model [] (Some []) = Ok (Logits2 [], Some NaN)) ∧
  (has_shape 1 1 [[0%Z]] ∧ has_shape 1 1 [[5%Z]] ∧
   Forall (valid_ids 2) [[0%Z]] ∧
   forward Demo.model [[0%Z]] (Some [[5%Z]]) = Raise IndexError).
Proof.
  split; [split|split; [|split; [|split]]].
  - repeat split; repeat constructor.
  - reflexivity.
  - repeat split; repeat constructor.
  - repeat split; repeat constructor.
  - repeat constructor; lia.
  - reflexivity.
Qed.

End forward_witnesses.

(** ** Bigram predictor: generation *)

Section generate_claims.
Import Torch Bigram TorchFacts ForwardFacts GenerateFacts.
Context {G : Type} (draw : G → list R → result (Z * G)).

(** C3, as the code has it. For a non-empty seed with all ids in
    [0, size) and [steps ≥ 0], [generate] on the batch of that one seed
    returns one sequence, of length [len(seed) + steps], that starts
    with the seed. *)
Theorem generate_extends_seed
    (self : BigramLanguageModel) (size : nat) (seed : list Z)
    (steps : Z) (g : G) :
  draw_ok draw → well_formed size self →
  valid_ids size seed → seed ≠ [] → (0 ≤ steps)%Z →
  ∃ out g',
    generate draw self [seed] steps g = Ok ([out], g') ∧
    Z.of_nat (length out) = (Z.of_nat (length seed) + steps)%Z ∧
    take (length seed) out = seed.
Proof.
  intros Hdraw Hwf Hseed Hne Hsteps. unfold generate.
  destruct (generate_loop_total draw Hdraw self size Hwf
              (Z.to_nat steps) [seed] g) as (idx' & g' & Hloop).
  { by constructor. }
  { by constructor. }
  assert (Forall (valid_ids size) [seed]) as Hidx by by constructor.
  pose proof (generate_loop_inv draw Hdraw self size Hwf _ _ _ _ _
                Hidx Hloop) as Hinv.
  apply Forall2_cons_inv_l in Hinv
    as (out & rest & (new & -> & Hlen & _) & Hrest & ->).
  apply Forall2_nil_inv_l in Hrest as ->.
  exists (seed ++ new), g'. split; [done|]. split.
  - rewrite length_app. lia.
  - apply take_app_length.
Qed.

(** C4. The distribution the next id is drawn from is the softmax of
    the table row of the last id of the context: two contexts with ids
    in [0, size) and the same last id give the same distribution,
    whatever precedes it. *)
Theorem next_distribution_depends_on_last_id
    (self : BigramLanguageModel) (size : nat) (c1 c2 : list Z) :
  well_formed size self →
  valid_ids size c1 → valid_ids size c2 →
  last c1 = last c2 →
  next_probs self [c1] = next_probs self [c2] ∧
  ∀ i, last c1 = Some i →
    next_probs self [c1]
    = Ok [softmax (weight (token_embedding_table self) !!! Z.to_nat i)].
Proof.
  intros Hwf Hc1 Hc2 Hlast.
  rewrite !(next_probs_rows self size Hwf) by by constructor.
  rewrite !mapM_cons, !mapM_nil. unfold row_probs.
  rewrite <-Hlast. split; [done|]. by intros i ->.
Qed.

(** C5. For a seed with all ids in [0, size), every id of every
    sequence [generate] returns is in [0, size); and [generate] does
    return when the seed is not empty. *)
Theorem generate_ids_in_range
    (self : BigramLanguageModel) (size : nat) (seed : list Z)
    (steps : Z) (g : G) :
  draw_ok draw → well_formed size self → valid_ids size seed →
  (seed ≠ [] → ∃ out g', generate draw self [seed] steps g = Ok (out, g')) ∧
  (∀ out g', generate draw self [seed] steps g = Ok (out, g') →
     Forall (valid_ids size) out).
Proof.
  intros Hdraw Hwf Hseed. unfold generate. split.
  - intros Hne. apply (generate_loop_total draw Hdraw self size Hwf);
      by constructor.
  - intros out g' Hloop.
    assert (Forall (valid_ids size) [seed]) as Hidx by by constructor.
    pose proof (generate_loop_inv draw Hdraw self size Hwf _ _ _ _ _
                  Hidx Hloop) as Hinv.
    apply Forall2_cons_inv_l in Hinv
      as (row & rest & (new & -> & _ & Hnew) & Hrest & ->).
    apply Forall2_nil_inv_l in Hrest as ->.
    constructor; [|constructor]. by apply Forall_app.
Qed.

End generate_claims.

Section generate_witnesses.
Import Torch Bigram.

Lemma generate_extends_seed_witness :
  ∃ out g',
    generate Demo.round_robin Demo.model [[0%Z]] 3 0 = Ok ([out], g') ∧
    Z.of_nat (length out) = 4%Z.
Proof.
  destruct (generate_extends_seed Demo.round_robin Demo.model 2 [0%Z] 3 0)
    as (out & g' & Hgen & Hlen & _).
  - exact DemoFacts.round_robin_ok.
  - repeat split; repeat constructor.
  - repeat constructor; lia.
  - discriminate.
  - lia.
  - exists out, g'. split; assumption.
Defined.

(** C3, counterexample: the empty seed has all its ids in range, and
    one step of generation from it raises. *)
Lemma generate_empty_seed_raises :
  valid_ids 2 [] ∧
  generate Demo.round_robin Demo.model [[]] 1 0 = Raise IndexError.
Proof. split; [constructor|reflexivity]. Qed.

Lemma next_distribution_depends_on_last_id_witness :
  next_probs Demo.model [[0; 0; 1]%Z] = next_probs Demo.model [[1; 1]%Z].
Proof.
  apply (next_distribution_depends_on_last_id Demo.model 2
           [0; 0; 1]%Z [1; 1]%Z).
  - repeat split; repeat constructor.
  - repeat constructor; lia.
  - repeat constructor; lia.
  - reflexivity.
Defined.

Lemma generate_ids_in_range_witness :
  Forall (valid_ids 2) [[0; 0; 1; 0; 1; 0]%Z].
Proof.
  apply (generate_ids_in_range Demo.round_robin Demo.model 2 [0%Z] 5 0)
    with (g' := 5).
  - exact DemoFacts.round_robin_ok.
  - repeat split; repeat constructor.
  - repeat constructor; lia.
  - reflexivity.
Defined.

End generate_witnesses.

(** ** Persistence *)

Section persistence_claims.
Import Torch Bigram.

(** C9. Saving the state dict of a model whose table is [size × size]
    and loading it into a freshly constructed model of the same size
    (whatever its initial weights) succeeds, and the loaded model
    scores every batch exactly as the original does. *)
Theorem state_dict_roundtrip
    (self : BigramLanguageModel) (size : nat) (randn : list (list R))
    (path : string) (fs : gmap string (gmap string (list (list R)))) :
  well_formed size self →
  ∃ sd self',
    load path (save (state_dict self) path fs) = Ok sd ∧
    sd !! weight_key = Some (weight (token_embedding_table self)) ∧
    load_state_dict (init size randn) sd = Ok self' ∧
    ∀ idx, forward self' idx None = forward self idx None.
Proof.
  intros (Hnum & Hdim & Hshape).
  exists (state_dict self). eexists.
  split; [|split; [|split]].
  - unfold load, save. by rewrite lookup_insert_eq.
  - unfold state_dict. by rewrite lookup_singleton_eq.
  - unfold load_state_dict, state_dict. rewrite lookup_singleton_eq.
    rewrite dom_singleton_L. case_decide; [|done].
    simpl. case_decide; [reflexivity|done].
  - done.
Qed.

Lemma state_dict_roundtrip_witness :
  ∃ self',
    load_state_dict (init 2 [[0; 0]; [0; 0]]%R) (state_dict Demo.model)
    = Ok self' ∧
    forward self' [[1; 0]%Z] None = forward Demo.model [[1; 0]%Z] None.
Proof.
  destruct (state_dict_roundtrip Demo.model 2 [[0; 0]; [0; 0]]%R
              "bigram-model-state-dict.pth" ∅)
    as (sd & self' & Hload & _ & Hsd & Hfwd).
  - repeat split; repeat constructor.
  - exists self'. injection Hload as <-. split; [exact Hsd|apply Hfwd].
Defined.

(** Loading into a model of another size raises. *)
Lemma load_state_dict_shape_mismatch :
  load_state_dict (init 3 [[0; 0; 0]; [0; 0; 0]; [0; 0; 0]]%R)
                  (state_dict Demo.model)
  = Raise RuntimeError.
Proof. reflexivity. Qed.

End persistence_claims.

(** ** The scenarios of the specification *)

Example encode_ab : Codec.encode Demo.vocab [97; 98]%N = Ok [0; 1]%Z.
Proof. reflexivity. Qed.

Example decode_ba : Codec.decode Demo.vocab [1; 0]%Z = Ok [98; 97]%N.
Proof. reflexivity. Qed.

Example encode_unknown_symbol :
  Codec.encode Demo.vocab [97; 99]%N = Raise KeyError.
Proof. reflexivity. Qed.

Example decode_invalid_id :
  Codec.decode Demo.vocab [0; 2]%Z = Raise KeyError.
Proof. reflexivity. Qed.

Example generate_five_steps :
  Bigram.generate Demo.round_robin Demo.model [[0%Z]] 5 0
  = Ok ([[0; 0; 1; 0; 1; 0]%Z], 5).
Proof. reflexivity. Qed.

(** * Further properties of the code *)

(** ** More on the exception monad *)

Section more_result_lemmas.
Context {A B : Type}.
Implicit Types (f : A → result B) (l : list A).

Lemma mapM_Raise_inv f l e :
  mapM f l = Raise e → ∃ x, x ∈ l ∧ f x = Raise e.
Proof.
  induction l as [|y l IH]; [done|]. rewrite mapM_cons.
  destruct (f y) as [b|e'] eqn:Hy; simpl.
  - destruct (mapM f l) as [k|e'] eqn:Hl; [done|]. simpl. intros [= ->].
    destruct IH as (x & Hx & Hfx); [done|]. exists x. split; [by right|done].
  - intros [= ->]. exists y. split; [by left|done].
Qed.

(** When [f] raises nothing but [exc], so does [mapM f]. *)
Lemma mapM_Raise_only f l exc x e :
  (∀ y e', y ∈ l → f y = Raise e' → e' = exc) →
  x ∈ l → f x = Raise e → mapM f l = Raise exc.
Proof.
  intros Honly Hx Hfx.
  destruct (mapM_Raise f l x e Hx Hfx) as [e' He'].
  destruct (mapM_Raise_inv f l e' He') as (y & Hy & Hfy).
  by rewrite He', (Honly y e' Hy Hfy).
Qed.

Lemma mapM_app f l1 l2 :
  mapM f (l1 ++ l2) = k1 ← mapM f l1; k2 ← mapM f l2; Ok (k1 ++ k2).
Proof.
  induction l1 as [|x l1 IH].
  - rewrite app_nil_l, mapM_nil. simpl. by destruct (mapM f l2).
  - rewrite <-app_comm_cons, !mapM_cons, IH. destruct (f x); [|done]. simpl.
    destruct (mapM f l1); [|done]. simpl. by destruct (mapM f l2).
Qed.

End more_result_lemmas.

(** ** More on the codec *)

Lemma StronglySorted_lookup_lt {A} (Rel : relation A) (l : list A) i j x y :
  StronglySorted Rel l → l !! i = Some x → l !! j = Some y → i < j → Rel x y.
Proof.
  intros Hl. revert i j. induction Hl as [|a l _ IH Ha]; intros i j Hi Hj Hij.
  - done.
  - destruct j as [|j]; [lia|]. simpl in Hj. destruct i as [|i].
    + injection Hi as <-. eapply (proj1 (Forall_forall _ _) Ha).
      by eapply list_elem_of_lookup_2.
    + simpl in Hi. eapply IH; [done..|lia].
Qed.

Module CodecMore.
Import Codec CodecFacts.

Section vocabulary.
Context (text : str) (v : Vocabulary) (Hv : build text = Ok v).

Lemma getitem_stoi_Ok c i :
  getitem (stoi v) c = Ok i → c ∈ text ∧ (0 ≤ i < vocab_size v)%Z.
Proof using Hv.
  unfold getitem. destruct (stoi v !! c) as [i'|] eqn:Hc; [|done].
  intros [= ->]. apply (stoi_lookup text v Hv) in Hc as (n & -> & Hn).
  split.
  - apply (chars_elem_of text v Hv). by eapply list_elem_of_lookup_2.
  - rewrite (vocab_size_eq text v Hv). apply lookup_lt_Some in Hn. lia.
Qed.

Lemma getitem_itos_Ok i c :
  getitem (itos v) i = Ok c → c ∈ text ∧ (0 ≤ i < vocab_size v)%Z.
Proof using Hv.
  unfold getitem. destruct (itos v !! i) as [c'|] eqn:Hc; [|done].
  intros [= ->]. apply (itos_lookup text v Hv) in Hc as (n & -> & Hn).
  split.
  - apply (chars_elem_of text v Hv). by eapply list_elem_of_lookup_2.
  - rewrite (vocab_size_eq text v Hv). apply lookup_lt_Some in Hn. lia.
Qed.

Lemma getitem_Raise `{Countable K} {V} (d : gmap K V) k e :
  getitem d k = Raise e → e = KeyError ∧ d !! k = None.
Proof. unfold getitem. destruct (d !! k); [done|]. by intros [= <-]. Qed.

Lemma encode_Ok_inv s ids :
  encode v s = Ok ids →
  length ids = length s ∧ Forall (λ c, c ∈ text) s ∧
  Forall (λ i, 0 ≤ i < vocab_size v)%Z ids.
Proof using Hv.
  unfold encode. intros Hs. split; [by eapply mapM_Ok_length|].
  apply mapM_Ok_Forall2 in Hs.
  induction Hs as [|c i s ids Hc _ [IH1 IH2]]; [done|].
  apply getitem_stoi_Ok in Hc as [? ?]. split; by constructor.
Qed.

Lemma decode_Ok_inv ids s :
  decode v ids = Ok s →
  length s = length ids ∧ Forall (λ c, c ∈ text) s ∧
  Forall (λ i, 0 ≤ i < vocab_size v)%Z ids.
Proof using Hv.
  unfold decode. intros Hs. split; [by eapply mapM_Ok_length|].
  apply mapM_Ok_Forall2 in Hs.
  induction Hs as [|i c ids s Hc _ [IH1 IH2]]; [done|].
  apply getitem_itos_Ok in Hc as [? ?]. split; by constructor.
Qed.

Lemma encode_Raise s e : encode v s = Raise e → e = KeyError.
Proof.
  intros (c & _ & Hc)%mapM_Raise_inv. by apply getitem_Raise in Hc as [? _].
Qed.

Lemma decode_Raise ids e : decode v ids = Raise e → e = KeyError.
Proof.
  intros (c & _ & Hc)%mapM_Raise_inv. by apply getitem_Raise in Hc as [? _].
Qed.

End vocabulary.
End CodecMore.

Section codec_extras.
Import Codec CodecFacts CodecMore.

(** X1. [encode] is defined exactly on the texts whose characters all
    occur in the corpus: it then returns one id of [0, vocab_size)
    per character; on any other text it raises [KeyError]. *)
Theorem encode_defined_exactly_on_corpus_chars
    (corpus text : str) (v : Vocabulary) :
  build corpus = Ok v →
  match encode v text with
  | Ok ids =>
      Forall (λ c, c ∈ corpus) text ∧ length ids = length text ∧
      Forall (λ i, 0 ≤ i < vocab_size v)%Z ids
  | Raise e => e = KeyError ∧ ¬ Forall (λ c, c ∈ corpus) text
  end.
Proof.
  intros Hv. destruct (encode v text) as [ids|e] eqn:Henc.
  - destruct (encode_Ok_inv corpus v Hv text ids Henc) as (? & ? & ?). done.
  - split; [by eapply encode_Raise|]. intros Hall.
    destruct (encode_is_Ok corpus v Hv text) as [ids Hids]; [|congruence].
    intros c Hc. by eapply (proj1 (Forall_forall _ _) Hall).
Qed.

Lemma encode_defined_exactly_on_corpus_chars_witness :
  match encode Demo.vocab [97; 99]%N with
  | Ok ids =>
      Forall (λ c, c ∈ Demo.corpus) [97; 99]%N ∧ length ids = 2 ∧
      Forall (λ i, 0 ≤ i < vocab_size Demo.vocab)%Z ids
  | Raise e => e = KeyError ∧ ¬ Forall (λ c, c ∈ Demo.corpus) [97; 99]%N
  end.
Proof.
  apply (encode_defined_exactly_on_corpus_chars Demo.corpus [97; 99]%N).
  vm_compute. reflexivity.
Defined.

(** X2. [decode] is defined exactly on the lists of ids in
    [0, vocab_size): it then returns one character of the corpus per
    id; on any other list (an id that is negative or not below
    [vocab_size]) it raises [KeyError]. *)
Theorem decode_defined_exactly_on_valid_ids
    (corpus : str) (ids : list Z) (v : Vocabulary) :
  build corpus = Ok v →
  match decode v ids with
  | Ok s =>
      Forall (λ i, 0 ≤ i < vocab_size v)%Z ids ∧ length s = length ids ∧
      Forall (λ c, c ∈ corpus) s
  | Raise e => e = KeyError ∧ ¬ Forall (λ i, 0 ≤ i < vocab_size v)%Z ids
  end.
Proof.
  intros Hv. destruct (decode v ids) as [s|e] eqn:Hdec.
  - destruct (decode_Ok_inv corpus v Hv ids s Hdec) as (? & ? & ?). done.
  - split; [by eapply decode_Raise|]. intros Hall.
    destruct (decode_is_Ok corpus v Hv ids Hall) as [s Hs]. congruence.
Qed.

Lemma decode_defined_exactly_on_valid_ids_witness :
  match decode Demo.vocab [0; -1]%Z with
  | Ok s =>
      Forall (λ i, 0 ≤ i < vocab_size Demo.vocab)%Z [0; -1]%Z ∧
      length s = 2 ∧ Forall (λ c, c ∈ Demo.corpus) s
  | Raise e =>
      e = KeyError ∧
      ¬ Forall (λ i, 0 ≤ i < vocab_size Demo.vocab)%Z [0; -1]%Z
  end.
Proof.
  apply (decode_defined_exactly_on_valid_ids Demo.corpus [0; -1]%Z).
  vm_compute. reflexivity.
Defined.

(** X3. Encoding the corpus itself, as the notebook does to build
    [data], never raises; the result has one id per character and the
    ids that occur in it are exactly those of [0, vocab_size). *)
Theorem corpus_encodes_onto_all_ids (corpus : str) (v : Vocabulary) :
  build corpus = Ok v →
  ∃ data,
    encode v corpus = Ok data ∧ length data = length corpus ∧
    ∀ i, i ∈ data ↔ (0 ≤ i < vocab_size v)%Z.
Proof.
  intros Hv. destruct (encode_is_Ok corpus v Hv corpus) as [data Hdata];
    [done|].
  destruct (encode_Ok_inv corpus v Hv corpus data Hdata) as (Hlen & _ & Hrng).
  exists data. split; [done|]. split; [done|]. intros i. split.
  - intros Hi. by eapply (proj1 (Forall_forall _ _) Hrng).
  - intros Hi. destruct (itos_is_Some corpus v Hv i Hi) as [c Hc].
    apply (stoi_itos corpus v Hv) in Hc.
    assert (c ∈ corpus) as Hin.
    { eapply getitem_stoi_Ok; [done|]. unfold getitem. by rewrite Hc. }
    apply list_elem_of_lookup in Hin as [n Hn].
    unfold encode in Hdata. apply mapM_Ok_Forall2 in Hdata.
    destruct (Forall2_lookup_l _ _ _ _ _ Hdata Hn) as (i' & Hi' & Hget).
    unfold getitem in Hget. rewrite Hc in Hget. injection Hget as <-.
    by eapply list_elem_of_lookup_2.
Qed.

Lemma corpus_encodes_onto_all_ids_witness :
  ∃ data,
    encode Demo.vocab Demo.corpus = Ok data ∧ length data = 4 ∧
    ∀ i, i ∈ data ↔ (0 ≤ i < 2)%Z.
Proof.
  apply (corpus_encodes_onto_all_ids Demo.corpus Demo.vocab).
  vm_compute. reflexivity.
Defined.

(** X4. Ids follow code points: of two characters of the vocabulary,
    the one with the smaller code point has the smaller id. *)
Theorem ids_follow_code_points
    (corpus : str) (v : Vocabulary) (c1 c2 : char) (i1 i2 : Z) :
  build corpus = Ok v →
  stoi v !! c1 = Some i1 → stoi v !! c2 = Some i2 →
  (c1 < c2)%N ↔ (i1 < i2)%Z.
Proof.
  intros Hv H1 H2.
  apply (stoi_lookup corpus v Hv) in H1 as (n1 & -> & Hn1).
  apply (stoi_lookup corpus v Hv) in H2 as (n2 & -> & Hn2).
  pose proof (chars_Sorted corpus v Hv) as Hsorted.
  pose proof (chars_NoDup corpus v Hv) as Hnodup.
  assert (∀ n m x y, chars v !! n = Some x → chars v !! m = Some y →
                     n < m → (x < y)%N) as Hlt.
  { intros n m x y Hn Hm Hnm.
    pose proof (StronglySorted_lookup_lt _ _ _ _ _ _ Hsorted Hn Hm Hnm).
    assert (x ≠ y); [|lia]. intros ->.
    pose proof (NoDup_lookup _ _ _ _ Hnodup Hn Hm). lia. }
  split.
  - intros Hc. destruct (decide (n1 < n2)) as [|Hge]; [lia|].
    destruct (decide (n1 = n2)) as [->|Hne].
    + rewrite Hn1 in Hn2. injection Hn2 as ->. lia.
    + assert (n2 < n1) as Hgt by lia.
      pose proof (Hlt _ _ _ _ Hn2 Hn1 Hgt). lia.
  - intros Hi. apply (Hlt n1 n2); [done..|lia].
Qed.

Lemma ids_follow_code_points_witness : (97 < 98)%N ↔ (0 < 1)%Z.
Proof.
  apply (ids_follow_code_points Demo.corpus Demo.vocab 97%N 98%N 0%Z 1%Z).
  - vm_compute. reflexivity.
  - reflexivity.
  - reflexivity.
Defined.

(** X5. The vocabulary depends on the set of characters of the corpus
    only, not on their order or multiplicity: two corpora with the
    same characters build the same vocabulary. *)
Theorem vocabulary_depends_on_character_set (corpus1 corpus2 : str) :
  (∀ c, c ∈ corpus1 ↔ c ∈ corpus2) →
  build corpus1 = build corpus2.
Proof.
  intros Hsame.
  assert ((list_to_set corpus1 : gset char) = list_to_set corpus2) as Hset.
  { apply set_eq. intros c. by rewrite !elem_of_list_to_set. }
  unfold build. by rewrite Hset.
Qed.

Lemma vocabulary_depends_on_character_set_witness :
  build [98; 97; 98]%N = build Demo.corpus.
Proof.
  apply vocabulary_depends_on_character_set.
  intros c. unfold Demo.corpus. rewrite !elem_of_cons. tauto.
Defined.

End codec_extras.

(** ** Slices, the split and the batches *)

Module DataFacts.
Import Torch Bigram Data.

Lemma slice_index_range (len i : Z) :
  (0 ≤ len)%Z → (0 ≤ slice_index len i ≤ len)%Z.
Proof. intros Hlen. unfold slice_index. case_decide; lia. Qed.

Lemma slice_to {A} (l : list A) (n : Z) :
  slice l None (Some n)
  = take (Z.to_nat (slice_index (Z.of_nat (length l)) n)) l.
Proof. unfold slice. by rewrite Z.sub_0_r, drop_0. Qed.

Lemma slice_from {A} (l : list A) (n : Z) :
  slice l (Some n) None
  = drop (Z.to_nat (slice_index (Z.of_nat (length l)) n)) l.
Proof.
  unfold slice.
  pose proof (slice_index_range (Z.of_nat (length l)) n) as Hk.
  apply take_ge. rewrite length_drop. lia.
Qed.

(** A window that lies inside the list. *)
Lemma slice_window {A} (l : list A) (i : Z) (k : nat) :
  (0 ≤ i)%Z → (i + Z.of_nat k ≤ Z.of_nat (length l))%Z →
  slice l (Some i) (Some (i + Z.of_nat k)%Z)
  = take k (drop (Z.to_nat i) l).
Proof.
  intros Hi Hk. unfold slice, slice_index.
  rewrite !decide_False by lia. f_equal; [lia|]. f_equal. lia.
Qed.

Lemma window_length {A} (l : list A) (i k : nat) :
  i + k ≤ length l → length (take k (drop i l)) = k.
Proof. intros Hk. rewrite length_take, length_drop. lia. Qed.

Lemma stack_Ok {A} (rows : list (list A)) (n : nat) :
  rows ≠ [] → Forall (λ r, length r = n) rows → stack rows = Ok rows.
Proof.
  intros Hne Hrows. destruct rows as [|r rows]; [done|]. unfold stack.
  rewrite decide_True; [done|].
  apply Forall_cons in Hrows as Hr. destruct Hr as [Hr _].
  eapply Forall_impl; [exact Hrows|]. simpl. congruence.
Qed.

Section draws.
Context {G : Type} (rand : G → Z → Z * G) (Hrand : rand_ok rand).

Lemma randint_draws_spec (high : Z) (n : nat) (g : G) :
  (0 < high)%Z →
  length (randint_draws rand high n g).1 = n ∧
  Forall (λ i, 0 ≤ i < high)%Z (randint_draws rand high n g).1.
Proof using Hrand.
  intros Hhigh. revert g. induction n as [|n IH]; intros g; simpl.
  - done.
  - destruct (rand g high) as [i g1] eqn:Hi.
    specialize (IH g1).
    destruct (randint_draws rand high n g1) as [rest g2]. simpl in *.
    destruct IH as [IH1 IH2]. split; [by rewrite IH1|].
    constructor; [|done]. by eapply Hrand.
Qed.

End draws.

End DataFacts.

Section get_batch_facts.
Import Torch Bigram Data DataFacts.
Context {G : Type} (rand : G → Z → Z * G) (Hrand : rand_ok rand).

Lemma batch_rows (data : list Z) (bs : nat) (ix : list Z) :
  Forall (λ i, 0 ≤ i < Z.of_nat (length data) - Z.of_nat bs)%Z ix →
  (λ i, slice data (Some i) (Some (i + Z.of_nat bs)%Z)) <$> ix
  = (λ i, take bs (drop (Z.to_nat i) data)) <$> ix ∧
  (λ i, slice data (Some (i + 1)%Z) (Some (i + Z.of_nat bs + 1)%Z)) <$> ix
  = (λ i, take bs (drop (S (Z.to_nat i)) data)) <$> ix.
Proof.
  intros Hix. split; apply Forall_fmap_ext;
    (eapply Forall_impl; [exact Hix|]); intros i Hi; cbv beta in *.
  - apply slice_window; lia.
  - replace (i + Z.of_nat bs + 1)%Z with ((i + 1) + Z.of_nat bs)%Z by lia.
    rewrite slice_window by lia. do 2 f_equal. lia.
Qed.

(** All the outcomes of [get_batch]. *)
Lemma get_batch_cases (env : Globals) (split : string) (g : G) :
  let data := if decide (split = "train") then train_data env
              else val_data env in
  match get_batch rand env split g with
  | Ok ((x, y), g') =>
      block_size env < length data ∧ 0 < batch_size env ∧
      has_shape (batch_size env) (block_size env) x ∧
      has_shape (batch_size env) (block_size env) y ∧
      windows_at data (block_size env) x y
  | Raise e =>
      e = RuntimeError ∧
      (length data ≤ block_size env ∨ batch_size env = 0)
  end.
Proof using Hrand.
  intros data. subst data. unfold get_batch. cbv zeta.
  set (data := if decide (split = "train") then train_data env
               else val_data env).
  unfold randint.
  case_decide as Hhigh; [|split; [done|left; lia]].
  destruct (randint_draws_spec rand Hrand _ (batch_size env) g Hhigh)
    as [Hlen Hrange].
  destruct (randint_draws rand _ (batch_size env) g) as [ix g1].
  simpl in Hlen, Hrange. simpl.
  destruct (batch_rows data (block_size env) ix Hrange) as [-> ->].
  destruct ix as [|i ix]; [split; [done|right; simpl in Hlen; lia]|].
  assert (Forall (λ r : list Z, length r = block_size env)
            ((λ j, take (block_size env) (drop (Z.to_nat j) data))
               <$> i :: ix)) as Hx.
  { apply Forall_fmap.
    eapply Forall_impl; [exact Hrange|]. intros j Hj. cbv beta in *.
    apply window_length. lia. }
  assert (Forall (λ r : list Z, length r = block_size env)
            ((λ j, take (block_size env) (drop (S (Z.to_nat j)) data))
               <$> i :: ix)) as Hy.
  { apply Forall_fmap.
    eapply Forall_impl; [exact Hrange|]. intros j Hj. cbv beta in *.
    apply window_length. lia. }
  set (xs := (λ j, take (block_size env) (drop (Z.to_nat j) data))
               <$> i :: ix) in *.
  set (ys := (λ j, take (block_size env) (drop (S (Z.to_nat j)) data))
               <$> i :: ix) in *.
  rewrite (stack_Ok xs (block_size env) ltac:(done) Hx).
  rewrite (stack_Ok ys (block_size env) ltac:(done) Hy).
  simpl. split; [lia|]. split; [simpl in Hlen; lia|].
  split; [|split].
  - split; [by unfold xs; rewrite length_fmap|exact Hx].
  - split; [by unfold ys; rewrite length_fmap|exact Hy].
  - unfold windows_at. apply Forall2_fmap, Forall_Forall2_diag.
    eapply Forall_impl; [exact Hrange|]. intros j Hj. cbv beta in *.
    exists (Z.to_nat j). split; [lia|done].
Qed.

End get_batch_facts.

Lemma window_shift {A} (l : list A) (i bs : nat) :
  drop 1 (take bs (drop i l)) = take (bs - 1) (take bs (drop (S i) l)).
Proof.
  rewrite take_take. replace (min (bs - 1) bs) with (bs - 1) by lia.
  destruct bs as [|bs]; [by rewrite take_0|].
  replace (S bs - 1) with bs by lia.
  change (S bs) with (1 + bs).
  rewrite <-(take_drop_commute (drop i l) bs 1), drop_drop.
  by replace (i + 1) with (S i) by lia.
Qed.

Lemma window_elem_of {A} (l : list A) (i bs : nat) (a : A) :
  a ∈ take bs (drop i l) → a ∈ l.
Proof. intros Ha. by apply (subseteq_drop i l), (subseteq_take bs). Qed.

(** On a non-empty batch of ids of the vocabulary the loss of
    [forward] is a real number that is not negative. *)
Lemma forward_loss_nonneg
    (self : Bigram.BigramLanguageModel) (size nB nT : nat)
    (idx targets : list (list Z)) :
  Bigram.well_formed size self →
  Bigram.has_shape nB nT idx → Bigram.has_shape nB nT targets →
  Forall (Bigram.valid_ids size) idx →
  Forall (Bigram.valid_ids size) targets →
  0 < nB → 0 < nT →
  ∃ logits2 r,
    Bigram.forward self idx (Some targets)
    = Ok (Bigram.Logits2 logits2, Some (Torch.Fin r)) ∧ (0 <= r)%R.
Proof.
  intros (_ & _ & Hlen & Hrows) Hidx Htargets Hvalid Htvalid HB HT.
  pose proof (ForwardFacts.embedding_shape _ _ _ _ _
                (conj Hlen Hrows) Hidx Hvalid) as [HlB Hl].
  set (logits := map (map (λ i, Bigram.weight
                                  (Bigram.token_embedding_table self)
                                  !!! Z.to_nat i)) idx) in *.
  assert (Bigram.has_shape nB nT logits) as Hlrows.
  { split; [done|]. eapply Forall_impl; [exact Hl|]. by intros m [? _]. }
  assert (Forall (λ x, length x = size) (concat logits)) as Hcols.
  { apply Forall_concat_2. eapply Forall_impl; [exact Hl|]. by intros m [_ ?]. }
  pose proof (Forall_concat_2 _ _ Htvalid) as Hcvalid.
  pose proof (concat_length_eq _ _ _ _ Hlrows Htargets) as Hclen.
  destruct (TorchFacts.mean_nonneg
              ((λ p, - ln (Torch.softmax p.1 !!! Z.to_nat p.2))%R
                 <$> zip (concat logits) (concat targets)))
    as (r & Hr & Hpos).
  - destruct Htargets as [Hn Hrow]. destruct targets as [|row targets];
      [simpl in Hn; lia|].
    apply Forall_cons in Hrow as [Hrow _].
    destruct row as [|y row]; [simpl in Hrow; lia|].
    destruct (concat logits) as [|x l]; [done|]. done.
  - apply Forall_fmap, Forall_forall. intros [x y] Hxy. simpl.
    apply (ForwardFacts.cross_entropy_term_nonneg x y size).
    + eapply (proj1 (Forall_forall _ _) Hcols). by eapply elem_of_zip_l.
    + eapply (proj1 (Forall_forall _ _) Hcvalid). by eapply elem_of_zip_r.
  - exists (concat logits), r. split; [|done].
    unfold Bigram.forward.
    rewrite ForwardFacts.embedding_valid by (by rewrite Hlen).
    simpl. fold logits. unfold Bigram.loss_branch.
    case_decide; [|congruence].
    rewrite (ForwardFacts.cross_entropy_terms _ _ size) by done.
    simpl. by rewrite Hr.
Qed.

(** ** The data cells *)

Section data_extras.
Import Torch Bigram Data DataFacts.

(** X6. The split loses and repeats nothing: for every integer [n],
    also a negative one or one beyond the length, [data[:n]] followed
    by [data[n:]] is [data]. *)
Theorem split_partitions_data (data : list Z) (n : Z) :
  (split_data data n).1 ++ (split_data data n).2 = data.
Proof.
  unfold split_data. simpl. rewrite slice_to, slice_from.
  apply take_drop.
Qed.

Context {G : Type} (rand : G → Z → Z * G).

(** X7. [get_batch] returns exactly when the split has more than
    [block_size] ids and [batch_size] is positive, and then both
    tensors have shape [(batch_size, block_size)]; otherwise it raises
    [RuntimeError] (from [torch.randint] or [torch.stack]). *)
Theorem get_batch_returns_full_windows
    (env : Globals) (split : string) (g : G) :
  rand_ok rand →
  let data := if decide (split = "train") then train_data env
              else val_data env in
  match get_batch rand env split g with
  | Ok ((x, y), g') =>
      block_size env < length data ∧ 0 < batch_size env ∧
      has_shape (batch_size env) (block_size env) x ∧
      has_shape (batch_size env) (block_size env) y
  | Raise e =>
      e = RuntimeError ∧
      (length data ≤ block_size env ∨ batch_size env = 0)
  end.
Proof.
  intros Hrand data.
  pose proof (get_batch_cases rand Hrand env split g) as Hcases.
  cbv zeta in Hcases. fold data in Hcases.
  destruct (get_batch rand env split g) as [[[x y] g']|e]; [|done].
  destruct Hcases as (? & ? & ? & ? & _). done.
Qed.

(** X8. In a batch [get_batch] returns, every target row is its input
    row moved one token on in the data: [y[b][t]] is [x[b][t+1]] for
    [t + 1 < block_size], both rows being consecutive ids of the
    split, so every id of the batch is an id of the data. *)
Theorem get_batch_targets_are_next_tokens
    (env : Globals) (split : string) (g g' : G) (x y : list (list Z)) :
  rand_ok rand →
  get_batch rand env split g = Ok ((x, y), g') →
  let data := if decide (split = "train") then train_data env
              else val_data env in
  windows_at data (block_size env) x y ∧
  Forall2 (λ xr yr, drop 1 xr = take (block_size env - 1) yr) x y ∧
  Forall (Forall (λ i, i ∈ data)) x ∧ Forall (Forall (λ i, i ∈ data)) y.
Proof.
  intros Hrand Hget data.
  pose proof (get_batch_cases rand Hrand env split g) as Hcases.
  cbv zeta in Hcases. fold data in Hcases. rewrite Hget in Hcases.
  destruct Hcases as (_ & _ & _ & _ & Hwin).
  split; [done|]. unfold windows_at in Hwin.
  split; [|split].
  - eapply Forall2_impl; [exact Hwin|].
    intros xr yr (i & _ & -> & ->). apply window_shift.
  - eapply Forall2_Forall_l; [exact Hwin|]. apply Forall_true.
    intros xr yr (i & _ & -> & _). apply Forall_forall.
    intros a Ha. by eapply window_elem_of.
  - eapply Forall2_Forall_r; [exact Hwin|]. apply Forall_true.
    intros xr yr (i & _ & _ & ->). apply Forall_forall.
    intros a Ha. by eapply window_elem_of.
Qed.

(** X9. A batch drawn from a split of ids of the vocabulary can be
    scored: with positive [batch_size] and [block_size] and more than
    [block_size] ids in the split, [get_batch] followed by [forward]
    raises nothing and the loss is a real number that is not
    negative. *)
Theorem get_batch_then_forward
    (self : BigramLanguageModel) (size : nat)
    (env : Globals) (split : string) (g : G) :
  rand_ok rand → well_formed size self →
  let data := if decide (split = "train") then train_data env
              else val_data env in
  valid_ids size data →
  block_size env < length data →
  0 < batch_size env → 0 < block_size env →
  ∃ x y g' logits2 r,
    get_batch rand env split g = Ok ((x, y), g') ∧
    forward self x (Some y) = Ok (Logits2 logits2, Some (Fin r)) ∧
    (0 <= r)%R.
Proof.
  intros Hrand Hwf data Hdata Hlen Hbatch Hblock.
  pose proof (get_batch_cases rand Hrand env split g) as Hcases.
  cbv zeta in Hcases. fold data in Hcases.
  destruct (get_batch rand env split g) as [[[x y] g']|e] eqn:Hget.
  - destruct Hcases as (_ & _ & Hx & Hy & Hwin).
    assert (∀ xr a, a ∈ xr → xr ∈ x ∨ xr ∈ y → a ∈ data) as Hin.
    { intros xr a Ha [Hxr|Hxr].
      - apply list_elem_of_lookup in Hxr as [b Hb].
        destruct (Forall2_lookup_l _ _ _ _ _ Hwin Hb)
          as (yr & _ & i & _ & -> & _).
        by eapply window_elem_of.
      - apply list_elem_of_lookup in Hxr as [b Hb].
        destruct (Forall2_lookup_r _ _ _ _ _ Hwin Hb)
          as (xr' & _ & i & _ & _ & ->).
        by eapply window_elem_of. }
    destruct (forward_loss_nonneg self size _ _ x y Hwf Hx Hy)
      as (logits2 & r & Hfwd & Hr); [..|done|done|].
    + apply Forall_forall. intros xr Hxr. apply Forall_forall. intros a Ha.
      eapply (proj1 (Forall_forall _ _) Hdata). eapply Hin; eauto.
    + apply Forall_forall. intros yr Hyr. apply Forall_forall. intros a Ha.
      eapply (proj1 (Forall_forall _ _) Hdata). eapply Hin; eauto.
    + by exists x, y, g', logits2, r.
  - destruct Hcases as [_ [?|?]]; lia.
Qed.

End data_extras.

Section data_witnesses.
Import Torch Bigram Data.

Lemma counter_ok : rand_ok DemoData.counter.
Proof.
  intros g high i g' Hhigh [= <- <-]. by apply Z.mod_pos_bound.
Qed.

Lemma get_batch_returns_full_windows_witness :
  match get_batch DemoData.counter DemoData.env "train" 0 with
  | Ok ((x, y), g') =>
      2 < 5 ∧ 0 < 2 ∧ has_shape 2 2 x ∧ has_shape 2 2 y
  | Raise e => e = RuntimeError ∧ (5 ≤ 2 ∨ 2 = 0)
  end.
Proof.
  apply (get_batch_returns_full_windows DemoData.counter
           DemoData.env "train" 0).
  exact counter_ok.
Defined.

Lemma get_batch_targets_are_next_tokens_witness :
  Forall2 (λ xr yr : list Z, drop 1 xr = take 1 yr)
    [[0; 1]; [1; 0]]%Z [[1; 0]; [0; 1]]%Z.
Proof.
  apply (get_batch_targets_are_next_tokens DemoData.counter
           DemoData.env "train" 0 2).
  - exact counter_ok.
  - reflexivity.
Defined.

Lemma get_batch_then_forward_witness :
  ∃ x y g' logits2 r,
    get_batch DemoData.counter DemoData.env "val" 0 = Ok ((x, y), g') ∧
    forward Demo.model x (Some y) = Ok (Logits2 logits2, Some (Fin r)) ∧
    (0 <= r)%R.
Proof.
  apply (get_batch_then_forward DemoData.counter Demo.model 2
           DemoData.env "val" 0).
  - exact counter_ok.
  - repeat split; repeat constructor.
  - simpl. repeat constructor; lia.
  - simpl. lia.
  - simpl. lia.
  - simpl. lia.
Defined.

End data_witnesses.

(** ** More on [forward] *)

Module ForwardMore.
Import Torch Bigram TorchFacts ForwardFacts.

Lemma index_Raise {A} (l : list A) i e :
  index l i = Raise e →
  e = IndexError ∧ ¬ (0 ≤ i < Z.of_nat (length l))%Z.
Proof.
  unfold index. case_decide as Hi.
  - destruct (l !! Z.to_nat i) eqn:Hl; [done|].
    apply lookup_ge_None in Hl. lia.
  - by intros [= <-].
Qed.

#[global] Instance valid_ids_dec size ids : Decision (valid_ids size ids).
Proof. unfold valid_ids. apply _. Defined.

(** All the outcomes of the lookup. *)
Lemma embedding_cases (w : list (list R)) (idx : list (list Z)) :
  match embedding w idx with
  | Ok _ => Forall (valid_ids (length w)) idx
  | Raise e => e = IndexError ∧ ¬ Forall (valid_ids (length w)) idx
  end.
Proof.
  destruct (embedding w idx) as [x|e] eqn:Hemb.
  - unfold embedding in Hemb. apply mapM_Ok_Forall2 in Hemb.
    eapply Forall2_Forall_l; [exact Hemb|]. apply Forall_true.
    intros row xr Hrow. apply mapM_Ok_Forall2 in Hrow.
    eapply Forall2_Forall_l; [exact Hrow|]. apply Forall_true.
    intros i a Hi. by apply index_Ok in Hi as [? _].
  - split.
    + unfold embedding in Hemb.
      apply mapM_Raise_inv in Hemb as (row & _ & Hrow).
      apply mapM_Raise_inv in Hrow as (i & _ & Hi).
      by apply index_Raise in Hi as [? _].
    + intros Hvalid. rewrite embedding_valid in Hemb by done. done.
Qed.

Lemma Rsum_div (l : list R) (s : R) :
  Rsum ((λ a, a / s)%R <$> l) = (Rsum l / s)%R.
Proof.
  induction l as [|a l IH]; [unfold Rsum; simpl; unfold Rdiv; ring|].
  rewrite fmap_cons, !Rsum_cons, IH. unfold Rdiv. ring.
Qed.

(** Softmax sums to one. *)
Lemma Rsum_softmax (x : list R) : x ≠ [] → Rsum (softmax x) = 1%R.
Proof.
  intros Hne. pose proof (Rsum_exp_pos x Hne) as Hpos.
  unfold softmax.
  rewrite (list_fmap_compose exp (λ a, a / Rsum (exp <$> x))%R x
             : (λ xi, exp xi / Rsum (exp <$> x))%R <$> x = _).
  rewrite Rsum_div. unfold Rdiv. apply Rinv_r. lra.
Qed.

End ForwardMore.

Section forward_extras.
Import Torch Bigram TorchFacts ForwardFacts ForwardMore.

(** X10. [forward] raises [IndexError] as soon as one id of the batch,
    at any position, is not in [0, size), with or without targets. *)
Theorem forward_invalid_id_raises
    (self : BigramLanguageModel) (size : nat) (idx : list (list Z))
    (targets : option (list (list Z))) :
  well_formed size self →
  ¬ Forall (valid_ids size) idx →
  forward self idx targets = Raise IndexError.
Proof.
  intros (_ & _ & Hlen & _) Hinvalid. unfold forward.
  pose proof (embedding_cases (weight (token_embedding_table self)) idx)
    as Hcases.
  rewrite Hlen in Hcases.
  destruct (embedding _ idx) as [x|e]; [done|].
  by destruct Hcases as [-> _].
Qed.

Lemma forward_invalid_id_raises_witness :
  forward Demo.model [[0; 2; 1]%Z] None = Raise IndexError.
Proof.
  apply (forward_invalid_id_raises Demo.model 2).
  - repeat split; repeat constructor.
  - intros Hall. apply Forall_cons in Hall as [Hrow _].
    apply Forall_cons in Hrow as [_ Hrow].
    apply Forall_cons in Hrow as [Hbad _]. lia.
Defined.

(** X11. With targets, [forward] does not return the logits it
    returns without targets but their reshaping to [(B*T, C)], the
    rows of all sequences one after the other, and a loss; the
    targets then have as many entries as there are rows. *)
Theorem forward_with_targets_flattens_logits
    (self : BigramLanguageModel) (idx targets : list (list Z))
    (logits : logits_t) (loss : option scalar) :
  forward self idx (Some targets) = Ok (logits, loss) →
  ∃ logits3 s,
    forward self idx None = Ok (Logits3 logits3, None) ∧
    logits = Logits2 (concat logits3) ∧ loss = Some s ∧
    length (concat targets) = length (concat logits3).
Proof.
  unfold forward.
  destruct (embedding _ idx) as [logits3|e]; [|done]. simpl.
  unfold loss_branch. case_decide as Hlen; [|done].
  destruct (cross_entropy _ _) as [s|e]; [|done]. simpl.
  intros [= <- <-]. by exists logits3, s.
Qed.

Lemma forward_with_targets_flattens_logits_witness :
  ∃ logits3 s,
    forward Demo.model [[0; 1]; [1; 1]]%Z None = Ok (Logits3 logits3, None) ∧
    concat logits3 = [[1; 2]; [3; 4]; [3; 4]; [3; 4]]%R ∧
    forward Demo.model [[0; 1]; [1; 1]]%Z (Some [[1; 0]; [0; 0]]%Z)
    = Ok (Logits2 (concat logits3), Some s).
Proof.
  destruct (forward Demo.model [[0; 1]; [1; 1]]%Z (Some [[1; 0]; [0; 0]]%Z))
    as [[logits loss]|e] eqn:Hfwd; [|discriminate Hfwd].
  destruct (forward_with_targets_flattens_logits Demo.model
              [[0; 1]; [1; 1]]%Z [[1; 0]; [0; 0]]%Z logits loss Hfwd)
    as (logits3 & s & Hnone & -> & -> & _).
  exists logits3, s. split; [exact Hnone|]. split; [|reflexivity].
  injection Hnone as <-. reflexivity.
Defined.

(** X12. The probabilities [generate] samples from are distributions:
    when [next_probs] returns, it returns one row per sequence of the
    batch, each of [size] positive numbers that sum to one. *)
Theorem next_probs_are_distributions
    (self : BigramLanguageModel) (size : nat) (idx : list (list Z))
    (probs : list (list R)) :
  well_formed size self →
  Forall (valid_ids size) idx →
  next_probs self idx = Ok probs →
  length probs = length idx ∧
  Forall (λ p, length p = size ∧ Forall (λ x, 0 < x)%R p ∧
               Rsum p = 1%R) probs.
Proof.
  intros Hwf Hidx.
  rewrite (GenerateFacts.next_probs_rows self size Hwf) by done.
  intros Hprobs. split; [by eapply mapM_Ok_length|].
  apply mapM_Ok_Forall2 in Hprobs.
  eapply Forall2_Forall_r; [exact Hprobs|].
  eapply Forall_impl; [exact Hidx|]. intros row Hrow p Hp. simpl in Hrow.
  pose proof (GenerateFacts.row_probs_Ok_inv self size Hwf row p Hrow Hp)
    as Hlen.
  split; [done|]. unfold row_probs in Hp.
  destruct (last row) as [i|] eqn:Hlast; [|done]. injection Hp as <-.
  split; [apply softmax_pos|]. apply Rsum_softmax.
  apply last_Some_elem_of in Hlast.
  pose proof (proj1 (Forall_forall _ _) Hrow i Hlast) as Hi. simpl in Hi.
  rewrite softmax_length in Hlen. intros Hnil. rewrite Hnil in Hlen.
  simpl in Hlen. lia.
Qed.

End forward_extras.

Section forward_extras_witnesses.
Import Torch Bigram.

Lemma next_probs_are_distributions_witness :
  Forall (λ p, length p = 2 ∧ Forall (λ x, 0 < x)%R p ∧ Rsum p = 1%R)
    [softmax [3; 4]%R].
Proof.
  apply (next_probs_are_distributions Demo.model 2 [[0; 1]%Z]).
  - repeat split; repeat constructor.
  - repeat constructor; lia.
  - reflexivity.
Defined.

End forward_extras_witnesses.

(** ** More on [generate] *)

Module GenerateMore.
Import Torch Bigram TorchFacts ForwardFacts ForwardMore GenerateFacts.

Lemma row_probs_Raise (w : list (list R)) (row : list Z) e :
  row_probs w row = Raise e → e = IndexError ∧ row = [].
Proof.
  unfold row_probs. destruct (last row) as [i|] eqn:Hlast; [done|].
  intros [= <-]. split; [done|]. by apply last_None.
Qed.

Section next_probs.
Context (self : BigramLanguageModel) (size : nat).
Context (Hwf : well_formed size self).

(** All the outcomes of [next_probs]. *)
Lemma next_probs_cases (idx : list (list Z)) :
  match next_probs self idx with
  | Ok _ => Forall (valid_ids size) idx ∧ Forall (λ row, row ≠ []) idx
  | Raise e =>
      e = IndexError ∧
      ¬ (Forall (valid_ids size) idx ∧ Forall (λ row, row ≠ []) idx)
  end.
Proof using Hwf.
  destruct (decide (Forall (valid_ids size) idx)) as [Hvalid|Hinvalid].
  - rewrite (next_probs_rows self size Hwf) by done.
    destruct (mapM _ idx) as [probs|e] eqn:Hprobs.
    + split; [done|]. apply mapM_Ok_Forall2 in Hprobs.
      eapply Forall2_Forall_l; [exact Hprobs|]. apply Forall_true.
      intros row p Hp ->. done.
    + apply mapM_Raise_inv in Hprobs as (row & Hrow & Hraise).
      apply row_probs_Raise in Hraise as [-> ->].
      split; [done|]. intros [_ Hne].
      by apply (proj1 (Forall_forall _ _) Hne [] Hrow).
  - unfold next_probs, forward.
    pose proof (embedding_cases (weight (token_embedding_table self)) idx)
      as Hcases.
    destruct Hwf as (_ & _ & Hlen & _). rewrite Hlen in Hcases.
    destruct (embedding _ idx) as [x|e]; [done|]. simpl.
    destruct Hcases as [-> _]. split; [done|]. by intros [? _].
Qed.

End next_probs.

Section loop.
Context {G : Type} (draw : G → list R → result (Z * G)).
Context (self : BigramLanguageModel).

Lemma generate_loop_add (n m : nat) (idx : list (list Z)) (g : G) :
  generate_loop draw self (n + m) idx g
  = '(idx1, g1) ← generate_loop draw self n idx g;
    generate_loop draw self m idx1 g1.
Proof.
  revert idx g. induction n as [|n IH]; intros idx g; simpl; [done|].
  destruct (generate_step draw self idx g) as [[idx1 g1]|e]; [|done].
  simpl. apply IH.
Qed.

Lemma generate_step_Raise (idx : list (list Z)) (g : G) e :
  next_probs self idx = Raise e →
  generate_step draw self idx g = Raise e.
Proof. intros Hp. unfold generate_step. by rewrite Hp. Qed.

Context (size : nat) (Hwf : well_formed size self).
Context (Hdraw : draw_ok draw).

(** One iteration on a single sequence. *)
Lemma generate_step_single (c : list Z) (g : G) :
  valid_ids size c →
  generate_step draw self [c] g
  = p ← row_probs (weight (token_embedding_table self)) c;
    '(i, g1) ← draw g p;
    Ok ([c ++ [i]], g1).
Proof using Hwf.
  intros Hc. unfold generate_step.
  rewrite (next_probs_rows self size Hwf) by by constructor.
  rewrite mapM_cons, mapM_nil.
  destruct (row_probs _ c) as [p|e]; [|done]. simpl.
  by destruct (draw g p) as [[i g1]|e].
Qed.

(** The ids appended to a sequence depend on its last id and on the
    random source only. *)
Lemma generate_loop_last_only (n : nat) (c1 c2 new : list Z) (g g' : G) :
  valid_ids size c1 → valid_ids size c2 → last c1 = last c2 →
  generate_loop draw self n [c1] g = Ok ([c1 ++ new], g') →
  generate_loop draw self n [c2] g = Ok ([c2 ++ new], g').
Proof using Hwf Hdraw.
  revert c1 c2 new g. induction n as [|n IH];
    intros c1 c2 new g Hc1 Hc2 Hlast; simpl.
  - intros [= Hnew <-].
    assert (new = []) as ->.
    { apply (app_inv_head c1). by rewrite app_nil_r. }
    by rewrite app_nil_r.
  - rewrite !generate_step_single by done.
    unfold row_probs. rewrite <-Hlast.
    destruct (last c1) as [i0|] eqn:Hi0; [|done]. simpl.
    set (p := softmax (weight (token_embedding_table self) !!! Z.to_nat i0)).
    destruct (draw g p) as [[i g1]|e] eqn:Hi; [|done]. simpl.
    intros Hloop.
    assert (0 ≤ i < Z.of_nat size)%Z as Hrange.
    { apply (draw_range _ Hdraw) in Hi. unfold p in Hi.
      rewrite softmax_length in Hi.
      rewrite (table_row_length self size Hwf) in Hi; [done|].
      eapply (proj1 (Forall_forall _ _) Hc1). by eapply last_Some_elem_of. }
    assert (∀ c, valid_ids size c → valid_ids size (c ++ [i])) as Hsnoc.
    { intros c Hc. apply Forall_app. split; [done|].
      constructor; [done|constructor]. }
    assert (Forall (valid_ids size) [c1 ++ [i]]) as Hidx
      by (constructor; [by apply Hsnoc|constructor]).
    pose proof (generate_loop_inv draw Hdraw self size Hwf _ _ _ _ _
                  Hidx Hloop) as Hinv.
    apply Forall2_cons_inv_l in Hinv
      as (out & rest & (new' & Hout & _) & Hrest & [= Heq <-]).
    rewrite <-Heq, <-app_assoc in Hout. apply app_inv_head in Hout as ->.
    rewrite (app_assoc c2). apply (IH (c1 ++ [i])); [by apply Hsnoc..| |].
    + by rewrite !last_snoc.
    + by rewrite <-app_assoc.
Qed.

End loop.
End GenerateMore.

Section generate_extras.
Import Torch Bigram TorchFacts ForwardFacts GenerateFacts GenerateMore.
Context {G : Type} (draw : G → list R → result (Z * G)).


(** X14. Generation can be resumed: [a + b] steps are [a] steps
    followed by [b] steps from the batch and the generator state the
    first [a] steps return (and raise if those raise). *)
Theorem generate_resumes
    (self : BigramLanguageModel) (idx : list (list Z)) (a b : Z) (g : G) :
  (0 ≤ a)%Z → (0 ≤ b)%Z →
  generate draw self idx (a + b) g
  = '(idx1, g1) ← generate draw self idx a g;
    generate draw self idx1 b g1.
Proof.
  intros Ha Hb. unfold generate.
  rewrite Z2Nat.inj_add by done. apply generate_loop_add.
Qed.

(** X15. On a batch of at least one sequence (shape [(B,T)] with
    [B ≥ 1]) and with at least one step, [generate] returns exactly
    when all ids of the batch are in [0, size) and the sequences are
    not empty ([T ≥ 1]); otherwise it raises [IndexError], also when
    the id out of range is not the last of its sequence. *)
Theorem generate_fails_exactly
    (self : BigramLanguageModel) (size nB nT : nat)
    (idx : list (list Z)) (steps : Z) (g : G) :
  draw_ok draw → well_formed size self →
  has_shape nB nT idx → 0 < nB → (0 < steps)%Z →
  match generate draw self idx steps g with
  | Ok _ => Forall (valid_ids size) idx ∧ 0 < nT
  | Raise e => e = IndexError ∧ ¬ (Forall (valid_ids size) idx ∧ 0 < nT)
  end.
Proof.
  intros Hdraw Hwf [HB HT] HnB Hsteps. unfold generate.
  assert (Forall (λ row : list Z, row ≠ []) idx ↔ 0 < nT) as Hrows.
  { split.
    - intros Hne. destruct idx as [|row idx]; [simpl in HB; lia|].
      apply Forall_cons in Hne as [Hrow _].
      apply Forall_cons in HT as [Hlen _].
      destruct row; [done|simpl in Hlen; lia].
    - intros HnT. eapply Forall_impl; [exact HT|].
      intros row Hlen ->. simpl in Hlen. lia. }
  destruct (Z.to_nat steps) as [|n] eqn:Hn; [lia|].
  pose proof (next_probs_cases self size Hwf idx) as Hcases.
  destruct (next_probs self idx) as [probs|e] eqn:Hprobs.
  - destruct Hcases as [Hvalid Hne].
    destruct (generate_loop_total draw Hdraw self size Hwf (S n) idx g
                Hvalid Hne) as (out & g' & ->).
    split; [done|]. by apply Hrows.
  - simpl. rewrite (generate_step_Raise draw self idx g e Hprobs).
    destruct Hcases as [-> Hnot]. split; [done|].
    intros [Hvalid HnT]. apply Hnot. split; [done|]. by apply Hrows.
Qed.

(** X16. What [generate] appends to a sequence depends on the last id
    of the sequence and on the random source only: two seeds with ids
    in [0, size) and the same last id get, from the same generator
    state, the same new ids and the same final generator state. *)
Theorem generate_continuation_depends_on_last_id
    (self : BigramLanguageModel) (size : nat)
    (c1 c2 new : list Z) (steps : Z) (g g' : G) :
  draw_ok draw → well_formed size self →
  valid_ids size c1 → valid_ids size c2 → last c1 = last c2 →
  generate draw self [c1] steps g = Ok ([c1 ++ new], g') →
  generate draw self [c2] steps g = Ok ([c2 ++ new], g').
Proof.
  intros Hdraw Hwf Hc1 Hc2 Hlast. unfold generate.
  by apply (generate_loop_last_only draw self size Hwf Hdraw).
Qed.

End generate_extras.

Section generate_extras_witnesses.
Import Torch Bigram.


Lemma generate_resumes_witness :
  generate Demo.round_robin Demo.model [[0%Z]] (2 + 3) 0
  = '(idx1, g1) ← generate Demo.round_robin Demo.model [[0%Z]] 2 0;
    generate Demo.round_robin Demo.model idx1 3 g1.
Proof.
  apply (generate_resumes Demo.round_robin Demo.model [[0%Z]] 2 3 0); lia.
Defined.

Lemma generate_fails_exactly_witness :
  match generate Demo.round_robin Demo.model [[2; 0]%Z] 1 0 with
  | Ok _ => Forall (valid_ids 2) [[2; 0]%Z] ∧ 0 < 2
  | Raise e => e = IndexError ∧ ¬ (Forall (valid_ids 2) [[2; 0]%Z] ∧ 0 < 2)
  end.
Proof.
  apply (generate_fails_exactly Demo.round_robin Demo.model 2 1 2
           [[2; 0]%Z] 1 0).
  - exact DemoFacts.round_robin_ok.
  - repeat split; repeat constructor.
  - repeat split; repeat constructor.
  - lia.
  - lia.
Defined.

Lemma generate_continuation_depends_on_last_id_witness :
  generate Demo.round_robin Demo.model [[1; 1; 0]%Z] 3 0
  = Ok ([[1; 1; 0]%Z ++ [0; 1; 0]%Z], 3).
Proof.
  apply (generate_continuation_depends_on_last_id Demo.round_robin
           Demo.model 2 [0%Z] [1; 1; 0]%Z [0; 1; 0]%Z 3 0 3).
  - exact DemoFacts.round_robin_ok.
  - repeat split; repeat constructor.
  - repeat constructor; lia.
  - repeat constructor; lia.
  - reflexivity.
  - reflexivity.
Defined.

End generate_extras_witnesses.

(** ** The sampled text *)

Section generate_text_extras.
Import Torch Bigram Data Codec CodecFacts CodecMore GenerateFacts.
Context {G : Type} (draw : G → list R → result (Z * G)).

(** X17. For the vocabulary of a non-empty corpus and a model whose
    table has the size of the vocabulary, generating from the context
    [[[0]]] and decoding raises nothing: the text has
    [1 + max_new_tokens] characters, all of the corpus, and starts
    with the character of the corpus that has the least code point. *)
Theorem generate_text_from_corpus
    (corpus : str) (v : Vocabulary) (m : BigramLanguageModel)
    (size : nat) (max_new_tokens : Z) (g : G) :
  draw_ok draw → build corpus = Ok v → corpus ≠ [] →
  well_formed size m → vocab_size v = Z.of_nat size →
  (0 ≤ max_new_tokens)%Z →
  ∃ text g',
    generate_text draw v m max_new_tokens g = Ok (text, g') ∧
    Z.of_nat (length text) = (1 + max_new_tokens)%Z ∧
    Forall (λ c, c ∈ corpus) text ∧
    ∃ c0, head text = Some c0 ∧ ∀ c, c ∈ corpus → (c0 ≤ c)%N.
Proof.
  intros Hdraw Hv Hne Hwf Hsize Hsteps.
  assert (0 < size) as Hpos.
  { pose proof (vocab_size_zero corpus v Hv) as Hzero.
    destruct size; [|lia]. exfalso. by apply Hne, Hzero. }
  assert (Forall (valid_ids size) [[0%Z]]) as Hctx.
  { repeat constructor; lia. }
  destruct (generate_loop_total draw Hdraw m size Hwf
              (Z.to_nat max_new_tokens) [[0%Z]] g Hctx)
    as (out & g' & Hloop).
  { by repeat constructor. }
  pose proof (generate_loop_inv draw Hdraw m size Hwf _ _ _ _ _
                Hctx Hloop) as Hinv.
  apply Forall2_cons_inv_l in Hinv
    as (row & rest & (new & -> & Hlen & Hnew) & Hrest & ->).
  apply Forall2_nil_inv_l in Hrest as ->.
  assert (Forall (λ i, 0 ≤ i < vocab_size v)%Z ([0%Z] ++ new)) as Hids.
  { rewrite Hsize. apply Forall_app. split; [|done]. repeat constructor; lia. }
  destruct (decode_is_Ok corpus v Hv _ Hids) as [text Htext].
  destruct (decode_Ok_inv corpus v Hv _ _ Htext) as (Htlen & Hin & _).
  exists text, g'. split; [|split; [|split]].
  - unfold generate_text, generate. rewrite Hloop.
    change (decode v ([0%Z] ++ new) ≫= (λ text0, Ok (text0, g'))
            = Ok (text, g')).
    by rewrite Htext.
  - rewrite Htlen, length_app. simpl. lia.
  - done.
  - unfold decode in Htext. apply mapM_Ok_Forall2 in Htext.
    simpl in Htext.
    apply Forall2_cons_inv_l in Htext as (c0 & s & Hc0 & _ & ->).
    exists c0. split; [done|]. intros c Hc.
    unfold getitem in Hc0.
    destruct (itos v !! 0%Z) as [c0'|] eqn:Hitos; [|done].
    injection Hc0 as ->.
    apply (itos_lookup corpus v Hv) in Hitos as (n & Hn & Hfirst).
    assert (n = 0) as -> by lia.
    apply (chars_elem_of corpus v Hv), list_elem_of_lookup in Hc as [k Hk].
    destruct k as [|k].
    + rewrite Hfirst in Hk. injection Hk as ->. lia.
    + eapply (StronglySorted_lookup_lt N.le (chars v) 0 (S k));
        [by apply (chars_Sorted corpus)|done..|lia].
Qed.

End generate_text_extras.

Section generate_text_witness.
Import Torch Bigram Data Codec.

Lemma generate_text_from_corpus_witness :
  ∃ text g',
    generate_text Demo.round_robin Demo.vocab Demo.model 3 0
    = Ok (text, g') ∧
    Z.of_nat (length text) = 4%Z ∧
    Forall (λ c, c ∈ Demo.corpus) text.
Proof.
  destruct (generate_text_from_corpus Demo.round_robin Demo.corpus
              Demo.vocab Demo.model 2 3 0)
    as (text & g' & Htext & Hlen & Hin & _).
  - exact DemoFacts.round_robin_ok.
  - vm_compute. reflexivity.
  - discriminate.
  - repeat split; repeat constructor.
  - reflexivity.
  - lia.
  - exists text, g'. repeat split; assumption.
Defined.

End generate_text_witness.

(** ** More on persistence and on the loss *)

Section persistence_extras.
Import Torch Bigram TorchFacts ForwardFacts ForwardMore.

(** X18. [load_state_dict] accepts exactly the mappings that hold the
    one key [token_embedding_table.weight] with a tensor of the shape
    of the model's table; the loaded model then has that mapping as
    its state dict, whatever its weights were before. Any other
    mapping (key missing, another key present, another shape) raises
    [RuntimeError]. *)
Theorem load_state_dict_accepts_exactly
    (self : BigramLanguageModel) (sd : gmap string (list (list R))) :
  let emb := token_embedding_table self in
  let fits w := sd = {[ weight_key := w ]} ∧
                has_shape (num_embeddings emb) (embedding_dim emb) w in
  match load_state_dict self sd with
  | Ok self' =>
      state_dict self' = sd ∧
      fits (weight (token_embedding_table self')) ∧
      num_embeddings (token_embedding_table self') = num_embeddings emb ∧
      embedding_dim (token_embedding_table self') = embedding_dim emb
  | Raise e => e = RuntimeError ∧ ¬ ∃ w, fits w
  end.
Proof.
  intros emb fits. unfold load_state_dict. fold emb.
  destruct (sd !! weight_key) as [w|] eqn:Hw.
  - case_decide as Hdom.
    + assert (sd = {[ weight_key := w ]}) as Hsd.
      { apply map_eq. intros k. destruct (decide (k = weight_key)) as [->|Hk].
        - by rewrite lookup_singleton_eq.
        - rewrite lookup_singleton_ne by done. apply not_elem_of_dom.
          intros Hin. apply Hdom in Hin. set_solver. }
      case_decide as Hshape.
      * unfold state_dict. simpl. done.
      * split; [done|]. intros (w' & Hsd' & Hshape'). apply Hshape.
        rewrite Hsd' in Hsd. apply (f_equal (.!! weight_key)) in Hsd.
        rewrite !lookup_singleton_eq in Hsd. by injection Hsd as <-.
    + split; [done|]. intros (w' & Hsd' & _). apply Hdom.
      rewrite Hsd', dom_singleton_L. done.
  - split; [done|]. intros (w' & Hsd' & _).
    by rewrite Hsd', lookup_singleton_eq in Hw.
Qed.

(** X19. A state dict saved from a model of one size cannot be loaded
    into a model constructed with another size: [load_state_dict]
    raises [RuntimeError]. *)
Theorem load_state_dict_size_mismatch
    (self : BigramLanguageModel) (size size' : nat)
    (randn : list (list R)) :
  well_formed size self → size' ≠ size →
  load_state_dict (init size' randn) (state_dict self)
  = Raise RuntimeError.
Proof.
  intros (_ & _ & Hlen & _) Hne.
  unfold load_state_dict, state_dict. rewrite lookup_singleton_eq.
  case_decide; [|done]. simpl. case_decide as Hshape; [|done].
  destruct Hshape as [Hlen' _]. congruence.
Qed.

Lemma load_state_dict_size_mismatch_witness :
  load_state_dict (init 65 []) (state_dict Demo.model) = Raise RuntimeError.
Proof.
  apply (load_state_dict_size_mismatch Demo.model 2 65 []).
  - repeat split; repeat constructor.
  - lia.
Defined.

(** X20. The loss raises [IndexError] on a target that is not an id of
    the vocabulary (and is not the value [-100] the library ignores),
    for logits of shape [(B,T,size)] and targets of shape [(B,T)]. *)
Theorem loss_invalid_target_raises
    (size nB nT : nat) (logits : list (list (list R)))
    (targets : list (list Z)) (row : list Z) (t : Z) :
  has_shape3 nB nT size logits → has_shape nB nT targets →
  row ∈ targets → t ∈ row →
  ¬ (0 ≤ t < Z.of_nat size)%Z → t ≠ ignore_index →
  loss_branch logits targets = Raise IndexError.
Proof.
  intros [HB Hlogits] Htargets Hrow Ht Hout Hign.
  assert (has_shape nB nT logits) as Hrows.
  { split; [done|]. eapply Forall_impl; [exact Hlogits|]. by intros m [? _]. }
  pose proof (concat_length_eq _ _ _ _ Hrows Htargets) as Hlen.
  assert (Forall (λ x, length x = size) (concat logits)) as Hcols.
  { apply Forall_concat_2. eapply Forall_impl; [exact Hlogits|].
    by intros m [_ ?]. }
  assert (t ∈ concat targets) as Hin.
  { clear -Hrow Ht. induction targets as [|r targets IH];
      [by apply elem_of_nil in Hrow|].
    simpl. apply elem_of_app. apply elem_of_cons in Hrow as [->|Hrow].
    - by left.
    - right. by apply IH. }
  apply list_elem_of_lookup in Hin as [k Hk].
  destruct (lookup_lt_is_Some_2 (concat logits) k) as [x Hx].
  { rewrite Hlen. by eapply lookup_lt_Some. }
  unfold loss_branch. case_decide; [|congruence].
  unfold cross_entropy. case_decide; [|congruence].
  rewrite (mapM_Raise_only _ _ IndexError (x, t) IndexError).
  - done.
  - intros [x' y'] e _. unfold nll_term. case_decide; [done|]. simpl.
    destruct (index (log_softmax x') y') as [a|e'] eqn:Hidx; [done|].
    simpl. intros [= <-]. by apply index_Raise in Hidx as [? _].
  - apply list_elem_of_lookup. exists k. apply lookup_zip_with_Some.
    by exists x, t.
  - simpl. unfold nll_term. rewrite decide_False by done.
    rewrite index_out_of_range; [done|].
    unfold log_softmax. rewrite length_fmap.
    by rewrite (proj1 (Forall_forall _ _) Hcols x
                  (list_elem_of_lookup_2 _ _ _ Hx)).
Qed.

Lemma loss_invalid_target_raises_witness :
  loss_branch [[[1; 2]; [3; 4]]]%R [[0; 2]%Z] = Raise IndexError.
Proof.
  apply (loss_invalid_target_raises 2 1 2 _ _ [0; 2]%Z 2%Z).
  - repeat split; repeat constructor.
  - repeat split; repeat constructor.
  - left.
  - right. left.
  - lia.
  - discriminate.
Defined.

End persistence_extras.
